(** * Spreadsheet ingestion backend ([backend/main.py])

    A shallow embedding of the conversion engine [SpreadsheetLogic], of the
    two background jobs [process_file_task] and [delete_file_task], and of the
    [/health] probe, followed by the properties of the written specification
    that concern them.

    Conventions of the embedding.
    - Python dictionaries whose key order is observable (the rows handed to
      [pd.DataFrame], whose key order fixes the column order) are association
      lists; dictionaries that are only looked up or compared (the records
      returned by [to_dict], Firestore documents) are [gmap string value].
    - A float64 or an integer is represented by the rational number it
      denotes (or one of the two infinities); NaN and [None] are both the
      missing value [VNull].  Rounding, overflow and underflow of float64 are
      outside the model: a decimal literal is read exactly.  A statement
      about the number a cell is read as is therefore made for cells that
      are read without rounding ([exact_cell] below).
    - A cell is a string, a number, a boolean or missing (no dates).
    - Strings are byte strings; [strip] and [lower] act on ASCII.  A
      statement that depends on the cleaning of headers is therefore made
      for rows whose keys are ASCII ([ascii_keys] below), on which Python's
      [str.strip] and [str.lower] do the same.
    - pandas is taken at its 2.x behaviour; the texts of the messages of
      library exceptions are indicative.
    - Firestore, Cloud Storage, the push channel and the local disk form the
      [World]; every remote call can fail, as decided by an explicit record of
      faults, and a failed call has no effect.  Automatic document ids are
      fresh ids. *)

From Stdlib Require Import Ascii String QArith.
From stdpp Require Import gmap strings list fin_maps fin_sets pretty.

#[local] Set Warnings "-clear-no-such-hyp".

Local Open Scope string_scope.
Local Open Scope list_scope.
Local Open Scope nat_scope.

(** ** Values *)

(** A float64 (or integer) value other than NaN. *)
Inductive num : Type :=
  | Fin (q : Q)
  | PInf
  | NInf.

(** A spreadsheet cell or a Firestore field. [VServerTimestamp] is the
    sentinel [firestore.SERVER_TIMESTAMP] and occurs in documents only. *)
Inductive value : Type :=
  | VStr (s : string)
  | VNum (x : num)
  | VBool (b : bool)
  | VNull
  | VServerTimestamp.

Global Instance Q_eq_dec : EqDecision Q.
Proof. solve_decision. Defined.
Global Instance num_eq_dec : EqDecision num.
Proof. solve_decision. Defined.
Global Instance value_eq_dec : EqDecision value.
Proof. solve_decision. Defined.

(** An integer as a number, as in ['recordCount': len(processed_data)]. *)
Definition VInt (n : nat) : value := VNum (Fin (inject_Z (Z.of_nat n))).

(** [x < 10] on float64 values. *)
Definition num_ltb (x : num) (bound : Q) : bool :=
  match x with
  | Fin q => negb (Qle_bool bound q)
  | PInf => false
  | NInf => true
  end.

(** A row as given to [pd.DataFrame]: a dict in insertion order. *)
Definition row : Type := list (string * value).

(** A record as returned by [to_dict(orient='records')], and a Firestore
    document. *)
Abbreviation doc := (gmap string value).

(** [d.get(k)] on an insertion-ordered dict. *)
Fixpoint row_get (k : string) (r : row) : option value :=
  match r with
  | [] => None
  | (k', v) :: r' => if decide (k' = k) then Some v else row_get k r'
  end.

(** ** Exceptions and results *)

(** A Python exception: its class name and its message. *)
Inductive exn : Type :=
  | Exn (kind : string) (msg : string).

(** [str(e)] *)
Definition str (e : exn) : string :=
  match e with Exn _ m => m end.

Inductive outcome (A : Type) : Type :=
  | Returned (a : A)
  | Raised (e : exn).
Arguments Returned {A} a.
Arguments Raised {A} e.

(** ** String methods used on headers and cells *)

Module Str.

Definition code (a : ascii) : N := N_of_ascii a.

(** Python [str.isspace] on the ASCII range. *)
Definition py_space (a : ascii) : bool :=
  let c := code a in
  ((9 <=? c) && (c <=? 13) || (28 <=? c) && (c <=? 32))%N.

(** C [isspace]: blank, [\t], [\n], [\v], [\f], [\r]. *)
Definition c_space (a : ascii) : bool :=
  let c := code a in
  ((9 <=? c) && (c <=? 13) || (c =? 32))%N.

Definition is_upper (a : ascii) : bool :=
  let c := code a in ((65 <=? c) && (c <=? 90))%N.

Definition lower_ascii (a : ascii) : ascii :=
  if is_upper a then ascii_of_N (code a + 32) else a.

Fixpoint map (f : ascii → ascii) (s : string) : string :=
  match s with
  | EmptyString => EmptyString
  | String a s' => String (f a) (map f s')
  end.

Fixpoint lstrip (sp : ascii → bool) (s : string) : string :=
  match s with
  | EmptyString => EmptyString
  | String a s' => if sp a then lstrip sp s' else s
  end.

Definition rstrip (sp : ascii → bool) (s : string) : string :=
  String.rev (lstrip sp (String.rev s)).

(** [s.strip()] *)
Definition strip (s : string) : string := rstrip py_space (lstrip py_space s).

(** [s.lower()] *)
Definition lower (s : string) : string := map lower_ascii s.

(** [s.replace(' ', '_')] *)
Definition replace_space (s : string) : string :=
  map (λ a, if decide (a = " "%char) then "_"%char else a) s.

(** [s.endswith(suffix)] *)
Definition endswith (s suffix : string) : bool :=
  let n := String.length s in
  let m := String.length suffix in
  (m <=? n) && bool_decide (substring (n - m) m s = suffix).

End Str.

(** ** [pd.to_numeric(..., errors='coerce')] on one cell *)

Module Numeric.

Definition digit (a : ascii) : option Z :=
  let c := Str.code a in
  if ((48 <=? c) && (c <=? 57))%N then Some (Z.of_N c - 48)%Z else None.

(** Reads a run of decimal digits: the value accumulated so far, the number
    of digits read and the rest of the input. *)
Fixpoint digits (s : string) (acc : Z) (n : nat) : Z * nat * string :=
  match s with
  | EmptyString => (acc, n, s)
  | String a s' =>
      match digit a with
      | Some d => digits s' (10 * acc + d)%Z (S n)
      | None => (acc, n, s)
      end
  end.

(** An optional sign: [true] for a minus. *)
Definition sign (s : string) : bool * string :=
  match s with
  | String "-" s' => (true, s')
  | String "+" s' => (false, s')
  | _ => (false, s)
  end.

(** The exponent part: [e] or [E], an optional sign and at least one digit;
    when no digit follows, nothing is consumed. *)
Definition exponent (s : string) : Z * string :=
  match s with
  | String a s' =>
      if decide (a = "e"%char ∨ a = "E"%char) then
        let '(neg, s1) := sign s' in
        let '(e, n, s2) := digits s1 0%Z 0 in
        match n with
        | O => (0%Z, s)
        | S _ => ((if neg then - e else e)%Z, s2)
        end
      else (0%Z, s)
  | EmptyString => (0%Z, s)
  end.

(** The decimal literal grammar of the tokenizer's [xstrtod]: blanks, an
    optional sign, digits with an optional fraction (at least one digit in
    all), an optional exponent, blanks, end of input. *)
Definition xstrtod (s : string) : option Q :=
  let s1 := Str.lstrip Str.c_space s in
  let '(neg, s2) := sign s1 in
  let '(ip, n1, s3) := digits s2 0%Z 0 in
  let '(m, n2, s4) :=
    match s3 with
    | String "." r => digits r ip 0
    | _ => (ip, 0, s3)
    end in
  match n1 + n2 with
  | O => None
  | S _ =>
      let '(e, s5) := exponent s4 in
      match Str.lstrip Str.c_space s5 with
      | EmptyString =>
          let q := (inject_Z m * Qpower (10 # 1) (e - Z.of_nat n2))%Q in
          Some (Qred (if neg then - q else q)%Q)
      | String _ _ => None
      end
  end.

(** The words accepted besides decimal literals, compared without case;
    [None] is NaN. *)
Definition special (s : string) : option (option num) :=
  let w := Str.lower s in
  if decide (w = "nan" ∨ w = "-nan" ∨ w = "+nan") then Some None
  else if decide (w = "inf" ∨ w = "+inf" ∨ w = "infinity" ∨ w = "+infinity")
  then Some (Some PInf)
  else if decide (w = "-inf" ∨ w = "-infinity") then Some (Some NInf)
  else None.

(** A string cell: the number it reads as, or [None] (NaN under
    [errors='coerce']). *)
Definition of_string (s : string) : option num :=
  match xstrtod s with
  | Some q => Some (Fin q)
  | None =>
      match special s with
      | Some r => r
      | None => None
      end
  end.

(** One cell under [errors='coerce']: [None] is NaN. *)
Definition coerce (v : value) : option num :=
  match v with
  | VStr s => of_string s
  | VNum x => Some x
  | VBool b => Some (Fin (if b then 1 else 0)%Q)
  | VNull => None
  | VServerTimestamp => None
  end.

End Numeric.

(** ** The part of pandas the converter uses *)

Module Pandas.

(** The column index of a frame: the [RangeIndex] of a frame built from no
    data, or an index of string labels. *)
Inductive Index : Type :=
  | RangeIndex (stop : nat)
  | ObjectIndex (labels : list string).

(** Cells are stored row by row; every row has one cell per column. *)
Record DataFrame : Type := {
  columns : Index;
  cells : list (list value)
}.

Definition add_key (cols : list string) (k : string) : list string :=
  if decide (k ∈ cols) then cols else cols ++ [k].

(** The keys of all records, in order of first appearance. *)
Definition union_keys (raw : list row) : list string :=
  foldl (λ cols r, foldl add_key cols (r.*1)) [] raw.

(** [pd.DataFrame(raw_data)] for a list of records: an empty list gives a
    frame whose columns are [RangeIndex(0)]; a key missing from a record
    gives a missing cell. *)
Definition from_records (raw : list row) : DataFrame :=
  match raw with
  | [] => {| columns := RangeIndex 0; cells := [] |}
  | _ :: _ =>
      let cols := union_keys raw in
      {| columns := ObjectIndex cols;
         cells := (λ r, (λ c, default VNull (row_get c r)) <$> cols) <$> raw |}
  end.

(** The string labels of the columns (a [RangeIndex] has none). *)
Definition labels (df : DataFrame) : list string :=
  match columns df with
  | RangeIndex _ => []
  | ObjectIndex ls => ls
  end.

(** The positions at which label [c] occurs. *)
Fixpoint positions_from (i : nat) (c : string) (ls : list string) : list nat :=
  match ls with
  | [] => []
  | l :: ls' =>
      if decide (l = c) then i :: positions_from (S i) c ls'
      else positions_from (S i) c ls'
  end.
Definition positions (c : string) (ls : list string) : list nat :=
  positions_from 0 c ls.

(** The column at position [i]. *)
Definition column (i : nat) (df : DataFrame) : list value :=
  (λ r, default VNull (r !! i)) <$> cells df.

(** [df.fillna(fill)] *)
Definition fill_cell (fill v : value) : value :=
  match v with VNull => fill | _ => v end.
Definition fillna (fill : value) (df : DataFrame) : DataFrame :=
  {| columns := columns df; cells := (λ r : list value, fill_cell fill <$> r) <$> cells df |}.

Definition is_bool (v : value) : bool :=
  match v with VBool _ => true | _ => false end.

(** [pd.to_numeric(series, errors='coerce')]: a column of booleans is of a
    numeric dtype already and is returned as it is; otherwise every cell is
    coerced, NaN where that fails. *)
Definition to_numeric (s : list value) : list value :=
  if forallb is_bool s then s
  else (λ v, match Numeric.coerce v with
             | Some x => VNum x
             | None => VNull
             end) <$> s.

(** [series < bound], cell by cell; NaN compares false. *)
Definition lt_cell (bound : Q) (v : value) : bool :=
  match v with
  | VNum x => num_ltb x bound
  | VBool b => num_ltb (Fin (if b then 1 else 0)%Q) bound
  | _ => false
  end.

(** Overwrites the cells at the positions [ps] of every row with the
    corresponding cell of [s]. *)
Definition set_at (ps : list nat) (s : list value) (rows : list (list value))
  : list (list value) :=
  zip_with (λ r v, foldr (λ i r', <[i:=v]> r') r ps) rows s.

(** [df[c] = s]: all columns labelled [c] are overwritten; when there is
    none, a new last column is added. *)
Definition assign (c : string) (s : list value) (df : DataFrame) : DataFrame :=
  match positions c (labels df) with
  | [] =>
      {| columns := ObjectIndex (labels df ++ [c]);
         cells := zip_with (λ r v, r ++ [v]) (cells df) s |}
  | ps => {| columns := columns df; cells := set_at ps s (cells df) |}
  end.

(** [df.to_dict(orient='records')]: one dict per row, built from the
    (label, cell) pairs in column order, so a later column wins over an
    earlier one with the same label. The rows are read off the columns, so
    a frame without columns gives no record, however many rows it has. *)
Definition record_of (ls : list string) (r : list value) : doc :=
  foldl (λ d kv, <[kv.1 := kv.2]> d) ∅ (zip ls r).
Definition to_dict_records (df : DataFrame) : list doc :=
  match labels df with
  | [] => []
  | ls => record_of ls <$> cells df
  end.

End Pandas.

(** ** The converter: [SpreadsheetLogic] *)

Module SpreadsheetLogic.
Import Pandas.

(** One header: [.str.strip().str.lower().str.replace(' ', '_')] *)
Definition clean_header (h : string) : string :=
  Str.replace_space (Str.lower (Str.strip h)).

(** [clean_headers]: the [.str] accessor of an index that does not hold
    strings raises [AttributeError]. *)
Definition clean_headers (df : DataFrame) : outcome DataFrame :=
  match columns df with
  | RangeIndex _ =>
      Raised (Exn "AttributeError"
                "Can only use .str accessor with string values!")
  | ObjectIndex ls =>
      Returned {| columns := ObjectIndex (clean_header <$> ls);
                  cells := cells df |}
  end.

(** [df[c]] handed to [pd.to_numeric]: with the label on several columns
    the selection is a frame, which [to_numeric] refuses. *)
Definition numeric_column (c : string) (df : DataFrame)
  : outcome (list value) :=
  match positions c (labels df) with
  | [i] => Returned (to_numeric (column i df))
  | _ =>
      Raised (Exn "TypeError"
                "arg must be a list, tuple, 1-d array, or Series")
  end.

Definition apply_business_rules (df : DataFrame) (category : string)
  : outcome DataFrame :=
  let df := fillna (VStr "") df in
  if decide (category = "financial") then
    if decide ("amount" ∈ labels df) then
      match numeric_column "amount" df with
      | Returned s =>
          Returned (assign "amount" (fill_cell (VNum (Fin 0)) <$> s) df)
      | Raised e => Raised e
      end
    else Returned df
  else if decide (category = "inventory") then
    if decide ("stock" ∈ labels df) then
      match numeric_column "stock" df with
      | Returned s =>
          Returned (assign "low_stock_alert"
                      ((λ v, VBool (lt_cell 10 v)) <$> s) df)
      | Raised e => Raised e
      end
    else Returned df
  else Returned df.

(** The line printed by [process]. *)
Definition process_banner (raw_data : list row) (category : string)
  : string :=
  "Converting " ++ pretty (length raw_data) ++ " records for category: "
    ++ category ++ "...".

(** [process] without its [print]. *)
Definition convert (raw_data : list row) (category : string)
  : outcome (list doc) :=
  match clean_headers (from_records raw_data) with
  | Raised e => Raised e
  | Returned df =>
      match apply_business_rules df category with
      | Raised e => Raised e
      | Returned df' => Returned (to_dict_records df')
      end
  end.

End SpreadsheetLogic.

(** ** The world of the background jobs *)

(** Automatic document ids: a supply of strings none of which is in use. *)
Global Instance string_infinite : Infinite string :=
  search_infinite (pretty : nat → string).

(** The push message built by [process_file_task]. *)
Record Message : Type := {
  title : string;
  body : string;
  data : gmap string string;
  topic : string
}.

(** A buffered write of a [db.batch()]. *)
Inductive write : Type :=
  | WSet (id : string) (d : doc)
  | WDelete (id : string).

(** What a job does to the outside, in order. A push that was attempted and
    failed is recorded with [delivered = false]; a store call that failed has
    no effect and leaves no event. *)
Inductive event : Type :=
  | EvPrint (line : string)
  | EvTaskSet (id : string) (d : doc)
  | EvTaskUpdate (id : string) (fields : doc)
  | EvTaskDelete (id : string)
  | EvCommit (ws : list write)
  | EvSend (m : Message) (delivered : bool)
  | EvRemove (path : string).

Record World : Type := {
  processing_tasks : gmap string doc;  (* collection 'processing_tasks' *)
  app_data : gmap string doc;          (* collection 'app_data' *)
  bucket : gmap string string;         (* objects of the storage bucket *)
  disk : gmap string string;           (* local files, by path *)
  trace : list event
}.

Definition empty_world : World :=
  {| processing_tasks := ∅; app_data := ∅; bucket := ∅; disk := ∅;
     trace := [] |}.

(** A computation of a job: it may return or raise, and changes the world. *)
Definition Py (A : Type) : Type := World → outcome A * World.

Definition ret {A} (a : A) : Py A := λ w, (Returned a, w).
Definition raise {A} (e : exn) : Py A := λ w, (Raised e, w).
Definition bind {A B} (m : Py A) (k : A → Py B) : Py B :=
  λ w, match m w with
       | (Returned a, w') => k a w'
       | (Raised e, w') => (Raised e, w')
       end.

Notation "x <- m ;; k" := (bind m (λ x, k))
  (at level 100, m at next level, right associativity).
Notation "m ;; k" := (bind m (λ _, k))
  (at level 100, right associativity).

(** [try: body except Exception as e: handler e] *)
Definition try_except {A} (body : Py A) (handler : exn → Py A) : Py A :=
  λ w, match body w with
       | (Returned a, w') => (Returned a, w')
       | (Raised e, w') => handler e w'
       end.

(** [try: body finally: cleanup] *)
Definition try_finally {A} (body : Py A) (cleanup : Py unit) : Py A :=
  λ w, let '(r, w') := body w in
       match cleanup w' with
       | (Returned _, w'') => (r, w'')
       | (Raised e, w'') => (Raised e, w'')
       end.

(** Lifting a pure step that may raise. *)
Definition lift {A} (r : outcome A) : Py A := λ w, (r, w).

Definition emit (ev : event) (w : World) : World :=
  {| processing_tasks := processing_tasks w; app_data := app_data w;
     bucket := bucket w; disk := disk w; trace := trace w ++ [ev] |}.

Definition with_tasks (t : gmap string doc) (w : World) : World :=
  {| processing_tasks := t; app_data := app_data w;
     bucket := bucket w; disk := disk w; trace := trace w |}.

Definition with_app_data (a : gmap string doc) (w : World) : World :=
  {| processing_tasks := processing_tasks w; app_data := a;
     bucket := bucket w; disk := disk w; trace := trace w |}.

Definition with_disk (d : gmap string string) (w : World) : World :=
  {| processing_tasks := processing_tasks w; app_data := app_data w;
     bucket := bucket w; disk := d; trace := trace w |}.

(** [print(line)] *)
Definition print (line : string) : Py unit :=
  λ w, (Returned tt, emit (EvPrint line) w).

(** A remote call that fails when the fault record says so. *)
Definition guard (fault : option exn) : Py unit :=
  match fault with
  | Some e => raise e
  | None => ret tt
  end.

(** *** Firestore *)

Module Firestore.

(** The most operations one batch may hold. *)
Definition batch_limit : nat := 500.

(** The automatic ids of [n] successive
    [db.collection('app_data').document()]. *)
Definition new_record_ids (n : nat) : Py (list string) :=
  λ w, (Returned (fresh_list n (dom (app_data w))), w).

(** [task_ref.set(d)] *)
Definition task_set (fault : option exn) (id : string) (d : doc) : Py unit :=
  guard fault ;;
  λ w, (Returned tt,
        emit (EvTaskSet id d)
          (with_tasks (<[id := d]> (processing_tasks w)) w)).

(** [task_ref.update(fields)]: the fields are merged into the document,
    which must exist. *)
Definition task_update (fault : option exn) (id : string) (fields : doc)
  : Py unit :=
  guard fault ;;
  λ w, match processing_tasks w !! id with
       | None =>
           (Raised (Exn "NotFound" ("No document to update: " ++ id)), w)
       | Some d =>
           (Returned tt,
            emit (EvTaskUpdate id fields)
              (with_tasks (<[id := fields ∪ d]> (processing_tasks w)) w))
       end.

(** [db.collection('processing_tasks').document(id).get()]: the snapshot,
    [None] when [doc.exists] is false. *)
Definition task_get (fault : option exn) (id : string) : Py (option doc) :=
  guard fault ;;
  λ w, (Returned (processing_tasks w !! id), w).

(** [db.collection('processing_tasks').document(id).delete()] *)
Definition task_delete (fault : option exn) (id : string) : Py unit :=
  guard fault ;;
  λ w, (Returned tt,
        emit (EvTaskDelete id)
          (with_tasks (delete id (processing_tasks w)) w)).

(** [db.collection('app_data').where('sourceFileId', '==', id).stream()]:
    the ids of the matching documents. *)
Definition has_source (id : string) (d : doc) : Prop :=
  d !! "sourceFileId" = Some (VStr id).
Global Instance has_source_dec id d : Decision (has_source id d).
Proof. unfold has_source. apply _. Defined.

Definition records_of (id : string) (a : gmap string doc) : gmap string doc :=
  filter (λ kd, has_source id kd.2) a.

Definition query_source (fault : option exn) (id : string)
  : Py (list string) :=
  guard fault ;;
  λ w, (Returned ((map_to_list (records_of id (app_data w))).*1), w).

Definition apply_write (a : gmap string doc) (x : write) : gmap string doc :=
  match x with
  | WSet id d => <[id := d]> a
  | WDelete id => delete id a
  end.

(** [batch.commit()] on writes to 'app_data': all of them or none. *)
Definition commit (fault : option exn) (ws : list write) : Py unit :=
  guard fault ;;
  if decide (batch_limit < length ws) then
    raise (Exn "InvalidArgument"
             "maximum 500 writes allowed per request")
  else
    λ w, (Returned tt,
          emit (EvCommit ws) (with_app_data (foldl apply_write (app_data w) ws) w)).

End Firestore.

(** ** Requests *)

Record ProcessRequest : Type := {
  filePath : string;
  fileName : string;
  userId : string;
  category : string;
  fileType : string;
  customName : option string;
  expiryDate : option string
}.

Module DeleteRequest.
Record t : Type := {
  taskId : string;
  userId : string
}.
End DeleteRequest.

(** An optional string as a field: [None] is the null value. *)
Definition opt_str (o : option string) : value :=
  match o with
  | Some s => VStr s
  | None => VNull
  end.

(** [o or default] on an optional string. *)
Definition str_or (o : option string) (default : string) : string :=
  match o with
  | Some s => if decide (s = "") then default else s
  | None => default
  end.

(** ** What can go wrong outside during one ingestion *)

(** Each fault field is the exception the corresponding remote call raises,
    if any. The two readers stand for [pd.read_csv] and [pd.read_excel]
    followed by [to_dict(orient='records')], as functions of the file's
    content. *)
Record Env : Type := {
  set_fault : option exn;
  download_fault : option exn;
  partial_download : bool;
  read_csv : string → outcome (list row);
  read_excel : string → outcome (list row);
  commit_fault : option exn;
  update_fault : option exn;
  send_fault : option exn;
  error_update_fault : option exn
}.

(** [bucket.blob(src).download_to_filename(dst)]: fails on a fault or when
    the object is missing; a failed download may or may not leave a file at
    the destination. *)
Definition download_to_filename (env : Env) (src dst : string) : Py unit :=
  λ w,
    let failed :=
      if partial_download env then with_disk (<[dst := ""]> (disk w)) w
      else w in
    match download_fault env, bucket w !! src with
    | Some e, _ => (Raised e, failed)
    | None, None => (Raised (Exn "NotFound" ("No such object: " ++ src)), failed)
    | None, Some content => (Returned tt, with_disk (<[dst := content]> (disk w)) w)
    end.

(** Lines 121-126: the reader is chosen by the extension of the file name;
    the result is the list of raw records. *)
Definition read_rows (env : Env) (request : ProcessRequest)
    (content : string) : outcome (list row) :=
  if Str.endswith (fileName request) ".csv" then read_csv env content
  else read_excel env content.

Definition read_table (env : Env) (request : ProcessRequest) (path : string)
  : Py (list row) :=
  λ w,
    match disk w !! path with
    | None => (Raised (Exn "FileNotFoundError" ("No such file: " ++ path)), w)
    | Some content => (read_rows env request content, w)
    end.

(** [if os.path.exists(path): os.remove(path)] *)
Definition remove_if_exists (path : string) : Py unit :=
  λ w,
    match disk w !! path with
    | Some _ =>
        (Returned tt, emit (EvRemove path) (with_disk (delete path (disk w)) w))
    | None => (Returned tt, w)
    end.

(** [messaging.send(m)] *)
Definition send (fault : option exn) (m : Message) : Py unit :=
  λ w,
    match fault with
    | Some e => (Raised e, emit (EvSend m false) w)
    | None => (Returned tt, emit (EvSend m true) w)
    end.

(** [converter.process(raw_data, category)] *)
Definition process (raw_data : list row) (category : string) : Py (list doc) :=
  print (SpreadsheetLogic.process_banner raw_data category) ;;
  lift (SpreadsheetLogic.convert raw_data category).

(** ** The ingestion job *)

(** The scratch file of a job. *)
Definition temp_path (request : ProcessRequest) : string :=
  "/tmp/" ++ fileName request.

(** Step A: the task document. *)
Definition task_data (request : ProcessRequest) : doc :=
  let d : doc :=
    list_to_map
      [("fileName", VStr (fileName request));
       ("uploadedBy", VStr (userId request));
       ("status", VStr "processing");
       ("category", VStr (category request));
       ("type", VStr (fileType request));
       ("createdAt", VServerTimestamp);
       ("notificationSent", VBool false)] in
  if decide (fileType request = "side") then
    let d := <["customName" := opt_str (customName request)]> d in
    match expiryDate request with
    | Some day => if decide (day = "") then d else <["expiryDate" := VStr day]> d
    | None => d
    end
  else d.

(** Step D: the document written for one converted record; the four fields
    after [**item] override fields of the same name in it. *)
Definition published_record (request : ProcessRequest) (task_id : string)
    (item : doc) : doc :=
  <["updatedAt" := VServerTimestamp]>
    (<["customName" := opt_str (customName request)]>
       (<["category" := VStr (category request)]>
          (<["sourceFileId" := VStr task_id]> item))).

(** The most records one ingestion writes: the slice [[:400]]. *)
Definition publish_cap : nat := 400.

Definition publish (env : Env) (request : ProcessRequest) (task_id : string)
    (processed_data : list doc) : Py unit :=
  let items := take publish_cap processed_data in
  ids <- Firestore.new_record_ids (length items) ;;
  Firestore.commit (commit_fault env)
    (zip_with (λ id item, WSet id (published_record request task_id item))
       ids items).

(** Step E: the fields of the completion update. *)
Definition completed_fields (processed_data : list doc) : doc :=
  list_to_map
    [("status", VStr "completed");
     ("recordCount", VInt (length processed_data));
     ("notificationSent", VBool true)].

Definition error_fields (e : exn) : doc :=
  list_to_map [("status", VStr "error"); ("errorMessage", VStr (str e))].

(** Step F: the push message and its guarded send. *)
Definition sync_message (request : ProcessRequest) (task_id : string)
  : Message :=
  {| title := "New Data Synced";
     body := "Updated " ++ category request ++ ": "
               ++ str_or (customName request) "Main File";
     data := list_to_map
               [("type", "DATA_UPDATE");
                ("categoryId", category request);
                ("sourceId", task_id)];
     topic := "data_updates" |}.

Definition notify (env : Env) (request : ProcessRequest) (task_id : string)
  : Py unit :=
  try_except
    (send (send_fault env) (sync_message request task_id))
    (λ msg_err, print ("Notification error: " ++ str msg_err)).

(** Steps A to E, from the moment [task_ref] is bound. *)
Definition ingest (env : Env) (request : ProcessRequest) (task_id : string)
  : Py (list doc) :=
  Firestore.task_set (set_fault env) task_id (task_data request) ;;
  download_to_filename env (filePath request) (temp_path request) ;;
  raw_data <- read_table env request (temp_path request) ;;
  processed_data <- process raw_data (category request) ;;
  publish env request task_id processed_data ;;
  Firestore.task_update (update_fault env) task_id
    (completed_fields processed_data) ;;
  ret processed_data.

(** The first line an ingestion prints. *)
Definition start_line (request : ProcessRequest) : string :=
  "[" ++ userId request ++ "] Processing " ++ fileType request
    ++ " file: " ++ fileName request.

(** The [try] block, together with the value the local [task_ref] has when
    the block is left. Nothing before its assignment raises;
    [db.collection('processing_tasks').document()] makes a reference with a
    new automatic id and writes nothing. *)
Definition try_block (env : Env) (request : ProcessRequest)
  : World → option string * (outcome unit * World) :=
  λ w,
    let w1 := emit (EvPrint (start_line request)) w in
    let task_id := fresh (dom (processing_tasks w1)) in
    (Some task_id,
     (ingest env request task_id ;; notify env request task_id) w1).

(** The [except Exception as e] block. *)
Definition except_block (env : Env) (task_ref : option string) (e : exn)
  : Py unit :=
  print ("Error: " ++ str e) ;;
  match task_ref with
  | Some task_id =>
      Firestore.task_update (error_update_fault env) task_id (error_fields e)
  | None => ret tt
  end.

(** The job. [os.makedirs("/tmp", exist_ok=True)] changes nothing that is
    observed here and is left out. *)
Definition process_file_task (env : Env) (request : ProcessRequest) : Py unit :=
  try_finally
    (λ w,
       let '(task_ref, r) := try_block env request w in
       match r with
       | (Returned _, w') => (Returned tt, w')
       | (Raised e, w') => except_block env task_ref e w'
       end)
    (remove_if_exists (temp_path request)).

(** ** The deletion job *)

Record DeleteEnv : Type := {
  get_fault : option exn;
  query_fault : option exn;
  batch_fault : option exn;
  delete_fault : option exn
}.

Definition delete_file_task (env : DeleteEnv) (request : DeleteRequest.t)
  : Py unit :=
  let task_id := DeleteRequest.taskId request in
  try_except
    (snapshot <- Firestore.task_get (get_fault env) task_id ;;
     match snapshot with
     | None => ret tt
     | Some _ =>
         ids <- Firestore.query_source (query_fault env) task_id ;;
         Firestore.commit (batch_fault env) (WDelete <$> ids) ;;
         Firestore.task_delete (delete_fault env) task_id ;;
         print ("Deleted task " ++ task_id)
     end)
    (λ e, print ("Delete error: " ++ str e)).

(** ** The health probe *)

Definition health_check : Py doc :=
  ret {[ "status" := VStr "ready" ]}.

(** ** Vocabulary of the statements *)

Section vocabulary.
Import Pandas SpreadsheetLogic.

Implicit Types (raw : list row) (c k : string) (df : DataFrame).

(** A frame is well formed when every row has one cell per label. *)
Definition wf_frame df : Prop :=
  Forall (λ vs, length vs = length (labels df)) (cells df).

Definition has_key raw k : Prop := ∃ r : row, r ∈ raw ∧ k ∈ r.*1.

Definition only_header c raw k : Prop :=
  has_key raw k ∧ clean_header k = c ∧
  ∀ k', has_key raw k' → clean_header k' = c → k' = k.


(** The frame handed to the category rules for a non-empty list of
    records: cleaned headers, missing cells filled with the empty string. *)
Definition filled_frame raw : DataFrame :=
  fillna (VStr "")
    {| columns := ObjectIndex (clean_header <$> union_keys raw);
       cells := (λ r : row, (λ c, default VNull (row_get c r))
                              <$> union_keys raw) <$> raw |}.


End vocabulary.

Section job_vocabulary.

(** A field of a task document, if the task and the field exist. *)
Definition task_field (w : World) (task_id field : string) : option value :=
  processing_tasks w !! task_id ≫= (.!! field).

(** The id the next ingestion gives to its task. *)
Definition next_task_id (w : World) : string :=
  fresh (dom (processing_tasks w)).

(** The documents one ingestion publishes, by id. *)
Definition published (request : ProcessRequest) (task_id : string)
    (processed_data : list doc) (w : World) : gmap string doc :=
  let items := take publish_cap processed_data in
  list_to_map
    (zip (fresh_list (length items) (dom (app_data w)))
         (published_record request task_id <$> items)).

(** The events a job added to the trace. *)
Definition new_events (w w' : World) : list event :=
  drop (length (trace w)) (trace w').

(** The status an event writes on a task, if any. *)
Definition status_written (task_id : string) (ev : event) : option value :=
  match ev with
  | EvTaskSet id d => if decide (id = task_id) then d !! "status" else None
  | EvTaskUpdate id fields =>
      if decide (id = task_id) then fields !! "status" else None
  | _ => None
  end.

(** The statuses written on a task, oldest first. *)
Definition status_history (task_id : string) (evs : list event)
  : list value :=
  omap (status_written task_id) evs.

(** Events that are neither a write on a task nor a push. *)
Definition quiet (ev : event) : Prop :=
  match ev with
  | EvPrint _ | EvCommit _ | EvRemove _ => True
  | _ => False
  end.

(** No push was attempted. *)
Definition no_send (evs : list event) : Prop :=
  ∀ m delivered, EvSend m delivered ∉ evs.


(** The same environment with another outcome for the push. *)
Definition with_send_fault (fault : option exn) (env : Env) : Env :=
  {| set_fault := set_fault env;
     download_fault := download_fault env;
     partial_download := partial_download env;
     read_csv := read_csv env;
     read_excel := read_excel env;
     commit_fault := commit_fault env;
     update_fault := update_fault env;
     send_fault := fault;
     error_update_fault := error_update_fault env |}.

(** No remote call of a deletion fails. *)
Definition reliable (env : DeleteEnv) : Prop :=
  get_fault env = None ∧ query_fault env = None ∧
  batch_fault env = None ∧ delete_fault env = None.

(** The invariant of the two collections: every published record names a
    task that exists, and no task has more records than one ingestion
    writes. *)
Definition collections_inv (tasks records : gmap string doc) : Prop :=
  (∀ id d, records !! id = Some d →
     ∃ task_id, Firestore.has_source task_id d ∧ task_id ∈ dom tasks) ∧
  (∀ task_id, size (Firestore.records_of task_id records) ≤ publish_cap).

Definition store_inv (w : World) : Prop :=
  collections_inv (processing_tasks w) (app_data w).

(** The worlds the two jobs produce from empty collections, whatever
    fails on the way; between two jobs the bucket and the disk may change
    in any way (uploads, other processes). *)
Inductive reachable : World → Prop :=
  | reach_init w :
      processing_tasks w = ∅ → app_data w = ∅ → reachable w
  | reach_ingest env request w :
      reachable w → reachable (process_file_task env request w).2
  | reach_delete env request w :
      reachable w → reachable (delete_file_task env request w).2
  | reach_outside w w' :
      reachable w →
      processing_tasks w' = processing_tasks w →
      app_data w' = app_data w →
      reachable w'.

End job_vocabulary.

Section ingestion_vocabulary.

(** The writes of the batch of one ingestion. *)
Definition publish_writes (request : ProcessRequest) (task_id : string)
    (processed_data : list doc) (w : World) : list write :=
  zip_with (λ id item, WSet id (published_record request task_id item))
    (fresh_list (length (take publish_cap processed_data))
       (dom (app_data w)))
    (take publish_cap processed_data).

(** What step F adds to the trace: the attempted push and, when it
    failed, the line that logs the failure. *)
Definition push_events (env : Env) (request : ProcessRequest)
    (task_id : string) : list event :=
  match send_fault env with
  | Some e =>
      [EvSend (sync_message request task_id) false;
       EvPrint ("Notification error: " ++ str e)]
  | None => [EvSend (sync_message request task_id) true]
  end.

(** What steps A to E add to the trace when they succeed. *)
Definition ingest_events (request : ProcessRequest) (task_id : string)
    (raw : list row) (processed : list doc) (w : World) : list event :=
  [EvTaskSet task_id (task_data request);
   EvPrint (SpreadsheetLogic.process_banner raw (category request));
   EvCommit (publish_writes request task_id processed w);
   EvTaskUpdate task_id (completed_fields processed)].

End ingestion_vocabulary.

(** Documents with literal keys are not to be unfolded by [simpl]. *)
Arguments task_data : simpl never.
Arguments completed_fields : simpl never.
Arguments error_fields : simpl never.
Arguments published_record : simpl never.
Arguments published : simpl never.
Arguments publish_writes : simpl never.
Arguments sync_message : simpl never.
Arguments status_history : simpl never.
Arguments status_written : simpl never.
Arguments start_line : simpl never.
Arguments temp_path : simpl never.
Arguments push_events : simpl never.
Arguments ingest_events : simpl never.

(** ** Sample inputs *)

Module Sample.

(** A comma-separated upload of two financial rows. *)
Definition request : ProcessRequest :=
  {| filePath := "uploads/a.csv"; fileName := "a.csv"; userId := "u1";
     category := "financial"; fileType := "main"; customName := None;
     expiryDate := None |}.

(** The same file name, uploaded by someone else from elsewhere. *)
Definition request' : ProcessRequest :=
  {| filePath := "uploads/other/a.csv"; fileName := "a.csv"; userId := "u2";
     category := "inventory"; fileType := "side";
     customName := Some "Stock list"; expiryDate := Some "2030-01-01" |}.

Definition rows : list row :=
  [[("Amount", VStr "12.5")]; [("Amount", VStr "bad")]].

Definition rows_401 : list row := replicate 401 [("amount", VStr "1")].

(** Nothing fails. *)
Definition env : Env :=
  {| set_fault := None; download_fault := None; partial_download := false;
     read_csv := λ _, Returned rows;
     read_excel := λ _, Raised (Exn "ValueError" "not a workbook");
     commit_fault := None; update_fault := None; send_fault := None;
     error_update_fault := None |}.

(** The reader returns 401 rows. *)
Definition env_401 : Env :=
  {| set_fault := None; download_fault := None; partial_download := false;
     read_csv := λ _, Returned rows_401;
     read_excel := λ _, Raised (Exn "ValueError" "not a workbook");
     commit_fault := None; update_fault := None; send_fault := None;
     error_update_fault := None |}.


(** Empty collections, the uploaded object in the bucket. *)
Definition world : World :=
  {| processing_tasks := ∅; app_data := ∅;
     bucket := {[ "uploads/a.csv" := "Amount,12.5,bad" ]}; disk := ∅;
     trace := [] |}.

Definition delete_env : DeleteEnv :=
  {| get_fault := None; query_fault := None; batch_fault := None;
     delete_fault := None |}.

(** The batch of a deletion cannot be committed. *)
Definition delete_env_down : DeleteEnv :=
  {| get_fault := None; query_fault := None;
     batch_fault := Some (Exn "Unavailable" "503 backend down");
     delete_fault := None |}.

End Sample.

(** ** The endpoints *)

(** The JSON body and the status code of an answer. *)
Record Response : Type := {
  status_code : nat;
  payload : gmap string string
}.

(** [BackgroundTasks]: the jobs queued by a handler, run in order once the
    answer has been produced; a job that raises stops the queue, and what
    the jobs return or raise does not reach the client. *)
Definition run_background (tasks : list (Py unit)) : Py unit :=
  foldr (λ task rest, task ;; rest) (ret tt) tasks.

(** [POST /convert] *)
Definition trigger_conversion (env : Env) (request : ProcessRequest)
  : Response * list (Py unit) :=
  ({| status_code := 202;
      payload := list_to_map [("message", "Conversion started");
                              ("file", fileName request)] |},
   [process_file_task env request]).

(** [POST /delete-cloud] *)
Definition delete_cloud_data (env : DeleteEnv) (request : DeleteRequest.t)
  : Response * list (Py unit) :=
  ({| status_code := 200;
      payload := list_to_map [("message", "Deletion started")] |},
   [delete_file_task env request]).

(** One request served: the answer of the handler, and the world once its
    background jobs have run. *)
Definition serve (handled : Response * list (Py unit)) (w : World)
  : Response * World :=
  (handled.1, (run_background handled.2 w).2).

(** ** Further vocabulary *)

Section further_vocabulary.
Import Pandas SpreadsheetLogic.





(** The characters of a string. *)
Fixpoint chars (s : string) : list ascii :=
  match s with
  | EmptyString => []
  | String a s' => a :: chars s'
  end.

(** A string without white space at either end. *)
Definition trimmed (s : string) : Prop :=
  (∀ a, head (chars s) = Some a → Str.py_space a = false) ∧
  (∀ a, last (chars s) = Some a → Str.py_space a = false).









(** Some record has a key: the frame has a column. *)
Definition has_column (raw : list row) : Prop := ∃ k, has_key raw k.


(** A cell that is not missing. *)
Definition filled (v : value) : Prop := v ≠ VNull.


End further_vocabulary.

Section further_job_vocabulary.




(** The pushes attempted, oldest first, each with whether it went out. *)
Definition sends (evs : list event) : list (Message * bool) :=
  omap (λ ev, match ev with
              | EvSend m delivered => Some (m, delivered)
              | _ => None
              end) evs.

(** Whether the push of step F goes out. *)
Definition push_delivered (env : Env) : bool :=
  match send_fault env with
  | None => true
  | Some _ => false
  end.

(** The batches committed, oldest first. *)
Definition commits (evs : list event) : list (list write) :=
  omap (λ ev, match ev with
              | EvCommit ws => Some ws
              | _ => None
              end) evs.

End further_job_vocabulary.

Arguments sends : simpl never.
Arguments commits : simpl never.

(** ** Further sample inputs *)

Module Uploads.






(** The deletion of the task of the first ingestion in [Sample.world]. *)
Definition delete_request : DeleteRequest.t :=
  {| DeleteRequest.taskId := next_task_id Sample.world;
     DeleteRequest.userId := "u1" |}.

End Uploads.

(** * Properties of the converter *)

Section converter_facts.
Import Pandas SpreadsheetLogic.

Implicit Types (raw : list row) (ls cols : list string) (vs : list value)
  (c k : string) (df : DataFrame).

Lemma add_key_NoDup cols k : NoDup cols → NoDup (add_key cols k).
Proof.
  intros Hnd. unfold add_key. case_decide; [done|].
  apply NoDup_app. split_and!; [done| |apply NoDup_singleton].
  intros x Hx ->%list_elem_of_singleton. done.
Qed.

Lemma union_keys_NoDup raw : NoDup (union_keys raw).
Proof.
  unfold union_keys.
  assert (∀ ks cols, NoDup cols → NoDup (foldl add_key cols ks)) as Hin.
  { induction ks as [|k ks IH]; intros cols Hnd; simpl; [done|].
    apply IH, add_key_NoDup, Hnd. }
  assert (∀ cols, NoDup cols →
    NoDup (foldl (λ cols (r : row), foldl add_key cols (r.*1)) cols raw))
    as Hout.
  { induction raw as [|r raw IH]; intros cols Hnd; simpl; [done|].
    apply IH, Hin, Hnd. }
  apply Hout, NoDup_nil_2.
Qed.

Lemma positions_from_shift o c ls :
  positions_from (S o) c ls = S <$> positions_from o c ls.
Proof.
  revert o. induction ls as [|l ls IH]; intros o; simpl; [done|].
  case_decide; simpl; by rewrite IH.
Qed.

Lemma positions_from_lt o c ls i :
  i ∈ positions_from o c ls → o ≤ i < o + length ls.
Proof.
  revert o. induction ls as [|l ls IH]; intros o; simpl.
  - by intros ?%elem_of_nil.
  - case_decide.
    + intros [->|Hi%IH]%elem_of_cons; lia.
    + intros Hi%IH; lia.
Qed.

Lemma positions_from_none o c ls : c ∉ ls → positions_from o c ls = [].
Proof.
  revert o. induction ls as [|l ls IH]; intros o Hc; simpl; [done|].
  apply not_elem_of_cons in Hc as [? ?].
  case_decide; [congruence|]. by apply IH.
Qed.

Lemma positions_nil_iff c ls : positions c ls = [] ↔ c ∉ ls.
Proof.
  split; [|apply positions_from_none].
  unfold positions. generalize 0.
  induction ls as [|l ls IH]; intros o; simpl.
  - intros _. apply not_elem_of_nil.
  - case_decide; [done|]. intros Hp%IH. by apply not_elem_of_cons.
Qed.

(** A label carried by exactly one column has exactly one position. *)
Lemma positions_from_unique (f : string → string) o cols i k :
  NoDup cols → cols !! i = Some k →
  (∀ k', k' ∈ cols → f k' = f k → k' = k) →
  positions_from o (f k) (f <$> cols) = [o + i].
Proof.
  revert o i. induction cols as [|k0 cols IH]; intros o i Hnd Hi Huniq.
  - done.
  - apply NoDup_cons in Hnd as [Hk0 Hnd]. destruct i as [|i]; csimpl in *.
    + simplify_eq. rewrite decide_True by done.
      rewrite Nat.add_0_r. f_equal. apply positions_from_none.
      intros (k' & Hfk' & Hk')%list_elem_of_fmap.
      assert (k' = k) as -> by (apply Huniq; [by right|done]). done.
    + assert (k ∈ cols) as Hkin by (eapply list_elem_of_lookup_2; done).
      rewrite decide_False.
      2:{ intros Hfk0. assert (k0 = k) as -> by (apply Huniq; [by left|done]).
          done. }
      rewrite (IH (S o) i); [f_equal; lia|done..|].
      intros k' Hk'. apply Huniq. by right.
Qed.

(** What [to_dict] stores under a label: the cell of the last column that
    carries it. *)
Lemma foldl_insert_lookup ls vs (d : doc) o c :
  length ls = length vs →
  foldl (λ d (kv : string * value), <[kv.1 := kv.2]> d) d (zip ls vs) !! c
  = match last (positions_from o c ls) with
    | Some i => vs !! (i - o)
    | None => d !! c
    end.
Proof.
  revert vs d o. induction ls as [|l ls IH]; intros [|v vs] d o Hlen;
    simplify_eq/=; [done|].
  rewrite (IH vs _ (S o)) by done.
  assert (∀ i, last (positions_from (S o) c ls) = Some i →
               (v :: vs) !! (i - o) = vs !! (i - S o)) as Hlater.
  { intros i Hi%last_Some_elem_of%positions_from_lt.
    replace (i - o) with (S (i - S o)) by lia. done. }
  case_decide as Hl.
  - subst l. rewrite last_cons.
    destruct (last (positions_from (S o) c ls)) as [i|] eqn:Hlast.
    + symmetry. by apply Hlater.
    + rewrite lookup_insert_eq. by rewrite Nat.sub_diag.
  - destruct (last (positions_from (S o) c ls)) as [i|] eqn:Hlast.
    + symmetry. by apply Hlater.
    + by rewrite lookup_insert_ne.
Qed.

Lemma record_of_lookup ls vs c i :
  length ls = length vs → last (positions c ls) = Some i →
  record_of ls vs !! c = vs !! i.
Proof.
  intros Hlen Hlast. unfold record_of, positions in *.
  rewrite (foldl_insert_lookup ls vs ∅ 0 c Hlen), Hlast.
  by rewrite Nat.sub_0_r.
Qed.

Lemma record_of_snoc ls vs c v :
  length ls = length vs →
  record_of (ls ++ [c]) (vs ++ [v]) = <[c := v]> (record_of ls vs).
Proof.
  intros Hlen. unfold record_of.
  rewrite zip_with_app by done. by rewrite foldl_app.
Qed.

Lemma set_positions_length (ps : list nat) vs v :
  length (foldr (λ i r', <[i:=v]> r') vs ps) = length vs.
Proof.
  induction ps as [|p ps IH]; simpl; [done|]. by rewrite length_insert.
Qed.

Lemma set_positions_lookup (ps : list nat) vs v i :
  i ∈ ps → i < length vs →
  foldr (λ i r', <[i:=v]> r') vs ps !! i = Some v.
Proof.
  pose proof (λ ps, set_positions_length ps vs v) as Hlen.
  induction ps as [|p ps IH]; intros Hi Hlt; simpl.
  - by apply elem_of_nil in Hi.
  - destruct (decide (p = i)) as [->|Hne].
    + apply list_lookup_insert_eq. by rewrite Hlen.
    + rewrite list_lookup_insert_ne by done.
      apply elem_of_cons in Hi as [?|?]; [congruence|]. by apply IH.
Qed.

(** A frame with a column gives one record per row. *)
Lemma to_dict_records_labels df :
  labels df ≠ [] → to_dict_records df = record_of (labels df) <$> cells df.
Proof. unfold to_dict_records. by destruct (labels df). Qed.

Lemma to_dict_records_no_labels df : labels df = [] → to_dict_records df = [].
Proof. unfold to_dict_records. by intros ->. Qed.

Lemma to_dict_records_elem df d :
  d ∈ to_dict_records df →
  labels df ≠ [] ∧ ∃ vs, d = record_of (labels df) vs ∧ vs ∈ cells df.
Proof.
  unfold to_dict_records. destruct (labels df) as [|l ls] eqn:Hls.
  - by intros ?%elem_of_nil.
  - intros (vs & -> & Hvs)%list_elem_of_fmap. split; [done|]. by exists vs.
Qed.

(** After [df[c] = s] the frame has a column. *)
Lemma assign_labels_nonempty c (s : list value) df :
  labels (assign c s df) ≠ [].
Proof.
  unfold assign.
  destruct (positions c (labels df)) as [|p ps] eqn:Hps.
  - unfold labels at 1. cbn [columns]. by destruct (labels df).
  - change (labels {| columns := columns df; cells := _ |})
      with (labels df).
    intros Hnil. rewrite Hnil in Hps. discriminate Hps.
Qed.

(** After [df[c] = s], the record of row [j] holds [s[j]] under [c]. *)
Lemma assign_lookup c (s : list value) df j v :
  wf_frame df → length s = length (cells df) → s !! j = Some v →
  ∃ d, to_dict_records (assign c s df) !! j = Some d ∧ d !! c = Some v.
Proof.
  intros Hwf Hlen Hj.
  rewrite to_dict_records_labels by apply assign_labels_nonempty.
  unfold assign.
  destruct (cells df !! j) as [vs|] eqn:Hvs.
  2:{ apply lookup_ge_None in Hvs. apply lookup_lt_Some in Hj. lia. }
  assert (length vs = length (labels df)) as Hvslen.
  { eapply (Forall_lookup_1 _ _ _ _ Hwf); done. }
  destruct (positions c (labels df)) as [|p ps] eqn:Hps; simpl.
  - exists (<[c := v]> (record_of (labels df) vs)). split.
    + rewrite list_lookup_fmap, lookup_zip_with, Hvs, Hj. simpl.
      unfold labels at 1; simpl. by rewrite record_of_snoc.
    + apply lookup_insert_eq.
  - destruct (last (p :: ps)) as [i|] eqn:Hlast.
    2:{ by apply last_None in Hlast. }
    assert (i < length vs) as Hi.
    { apply last_Some_elem_of in Hlast. rewrite <-Hps in Hlast.
      apply positions_from_lt in Hlast. lia. }
    eexists. split.
    + unfold set_at. rewrite list_lookup_fmap, lookup_zip_with, Hvs, Hj.
      simpl. reflexivity.
    + change (labels {| columns := columns df; cells := _ |})
        with (labels df).
      rewrite (record_of_lookup _ _ c i).
      * apply (set_positions_lookup (p :: ps)); [|done].
        by apply last_Some_elem_of.
      * rewrite <-Hvslen. symmetry.
        exact (set_positions_length (p :: ps) vs v).
      * by rewrite Hps.
Qed.

Lemma union_keys_elem raw k : k ∈ union_keys raw ↔ has_key raw k.
Proof.
  unfold union_keys, has_key.
  assert (∀ ks cols, k ∈ foldl add_key cols ks ↔ k ∈ cols ∨ k ∈ ks) as Hin.
  { induction ks as [|k0 ks IH]; intros cols; simpl.
    - rewrite elem_of_nil. tauto.
    - rewrite IH. unfold add_key.
      case_decide as Hk0.
      + rewrite elem_of_cons. split; [tauto|].
        intros [?|[->|?]]; tauto.
      + rewrite elem_of_app, list_elem_of_singleton, elem_of_cons. tauto. }
  assert (∀ cols,
    k ∈ foldl (λ cols (r : row), foldl add_key cols (r.*1)) cols raw
    ↔ k ∈ cols ∨ ∃ r : row, r ∈ raw ∧ k ∈ r.*1) as Hout.
  { induction raw as [|r0 raw IH]; intros cols; simpl.
    - split; [by left|]. intros [?|(r & Hr & _)]; [done|].
      by apply elem_of_nil in Hr.
    - rewrite IH, Hin. split.
      + intros [[?|?]|(r & Hr & Hk)]; [by left|right..].
        * exists r0. split; [by left|done].
        * exists r. split; [by right|done].
      + intros [?|(r & [->|Hr]%elem_of_cons & Hk)]; [by left; left|..].
        * left. by right.
        * right. by exists r. }
  rewrite Hout. rewrite elem_of_nil. tauto.
Qed.

Lemma convert_nonempty raw category :
  raw ≠ [] →
  convert raw category =
    match apply_business_rules
            {| columns := ObjectIndex (clean_header <$> union_keys raw);
               cells := (λ r : row, (λ c, default VNull (row_get c r))
                                      <$> union_keys raw) <$> raw |}
            category with
    | Raised e => Raised e
    | Returned df' => Returned (to_dict_records df')
    end.
Proof. intros Hne. unfold convert. by destruct raw. Qed.

Lemma filled_frame_labels raw :
  labels (filled_frame raw) = clean_header <$> union_keys raw.
Proof. done. Qed.

Lemma filled_frame_length raw : length (cells (filled_frame raw)) = length raw.
Proof. unfold filled_frame, fillna. simpl. by rewrite !length_fmap. Qed.

Lemma filled_frame_wf raw : wf_frame (filled_frame raw).
Proof.
  unfold wf_frame. rewrite filled_frame_labels. unfold filled_frame, fillna.
  simpl. apply Forall_fmap, Forall_fmap, Forall_forall. intros r _. simpl.
  by rewrite !length_fmap.
Qed.

(** The column of the only header that cleans to [c]. *)
Lemma filled_frame_column c raw k :
  only_header c raw k →
  ∃ i, positions c (labels (filled_frame raw)) = [i] ∧
       ∀ j (r : row), raw !! j = Some r →
         column i (filled_frame raw) !! j
         = Some (fill_cell (VStr "") (default VNull (row_get k r))).
Proof.
  intros (Hk & Hc & Huniq). apply union_keys_elem in Hk.
  apply list_elem_of_lookup in Hk as [i Hi]. exists i. split.
  - rewrite filled_frame_labels, <-Hc. unfold positions.
    rewrite (positions_from_unique clean_header 0 _ i k); [done| |done|].
    + apply union_keys_NoDup.
    + intros k' Hk'%union_keys_elem Hck'. apply Huniq; congruence.
  - intros j r Hj. unfold column, filled_frame, fillna. simpl.
    rewrite !list_lookup_fmap, Hj. simpl.
    rewrite !list_lookup_fmap, Hi. done.
Qed.

End converter_facts.

Section converter_rules.
Import Pandas SpreadsheetLogic.

Implicit Types (raw : list row) (c k : string) (df : DataFrame).

Lemma process_result raw category w :
  process raw category w
  = (convert raw category, emit (EvPrint (process_banner raw category)) w).
Proof. done. Qed.



Lemma coerce_fill cell :
  Numeric.coerce (fill_cell (VStr "") cell) = Numeric.coerce cell.
Proof. by destruct cell. Qed.

(** One cell of [pd.to_numeric(s, errors='coerce')]. *)
Lemma to_numeric_lookup (s : list value) j v :
  s !! j = Some v →
  ∃ v', to_numeric s !! j = Some v' ∧
    (v' = v ∧ is_bool v = true ∨
     v' = match Numeric.coerce v with Some x => VNum x | None => VNull end).
Proof.
  intros Hj. unfold to_numeric. destruct (forallb is_bool s) eqn:Hall.
  - exists v. split; [done|]. left. split; [done|].
    rewrite forallb_forall in Hall. apply Hall.
    apply list_elem_of_In. by eapply list_elem_of_lookup_2.
  - rewrite list_lookup_fmap, Hj. simpl. eexists. split; [done|]. by right.
Qed.

Lemma to_numeric_length (s : list value) : length (to_numeric s) = length s.
Proof. unfold to_numeric. case_match; [done|]. by rewrite length_fmap. Qed.

Lemma column_length i df : length (column i df) = length (cells df).
Proof. unfold column. by rewrite length_fmap. Qed.

Lemma assign_length c (s : list value) df :
  length s = length (cells df) →
  length (to_dict_records (assign c s df)) = length (cells df).
Proof.
  intros Hlen.
  rewrite to_dict_records_labels by apply assign_labels_nonempty.
  unfold assign, set_at. rewrite length_fmap.
  destruct (positions c (labels df)); simpl; rewrite length_zip_with; lia.
Qed.

Lemma has_key_nonempty raw k : has_key raw k → raw ≠ [].
Proof. intros (r & Hr & _) ->. by apply elem_of_nil in Hr. Qed.


(** The financial rule on a frame with one [amount] column. *)
Lemma financial_rule raw k :
  only_header "amount" raw k →
  ∃ out, convert raw "financial" = Returned out ∧
    length out = length raw ∧
    ∀ j (r : row), raw !! j = Some r →
      ∃ d, out !! j = Some d ∧
        let cell := default VNull (row_get k r) in
        match Numeric.coerce cell with
        | None => d !! "amount" = Some (VNum (Fin 0))
        | Some x =>
            d !! "amount" = Some (VNum x) ∨
            (is_bool cell = true ∧ d !! "amount" = Some cell)
        end.
Proof.
  intros Hk. destruct (filled_frame_column _ _ _ Hk) as (i & Hpos & Hcol).
  rewrite convert_nonempty by (eapply has_key_nonempty, Hk).
  unfold apply_business_rules. fold (filled_frame raw).
  rewrite decide_True by done.
  rewrite decide_True.
  2:{ destruct (decide ("amount" ∈ labels (filled_frame raw))) as [|Hn];
        [done|]. apply positions_nil_iff in Hn. by rewrite Hn in Hpos. }
  unfold numeric_column. rewrite Hpos. eexists. split; [done|].
  split.
  { rewrite assign_length, filled_frame_length; [done|].
    by rewrite length_fmap, to_numeric_length, column_length. }
  intros j r Hj. specialize (Hcol j r Hj).
  destruct (to_numeric_lookup _ _ _ Hcol) as (v' & Hv' & Hcases).
  destruct (assign_lookup "amount"
              (fill_cell (VNum (Fin 0))
                 <$> to_numeric (column i (filled_frame raw)))
              (filled_frame raw) j (fill_cell (VNum (Fin 0)) v'))
    as (d & Hd & Hamount).
  { apply filled_frame_wf. }
  { by rewrite length_fmap, to_numeric_length, column_length. }
  { by rewrite list_lookup_fmap, Hv'. }
  exists d. split; [done|]. rewrite Hamount. clear Hd Hamount Hv' Hcol.
  rewrite coerce_fill in Hcases. simpl.
  destruct (default VNull (row_get k r)) as [s|x|b| |]; simpl in *;
    destruct Hcases as [[-> Hb]| ->]; try done; simpl; eauto.
  destruct (Numeric.of_string s); simpl; eauto.
Qed.


Lemma fillna_length fill df :
  length (cells (fillna fill df)) = length (cells df).
Proof. unfold fillna. simpl. by rewrite length_fmap. Qed.

(** The rules keep the number of rows of a frame with a column. *)
Lemma apply_business_rules_length df category df' :
  apply_business_rules df category = Returned df' →
  labels df ≠ [] →
  length (to_dict_records df') = length (cells df).
Proof.
  unfold apply_business_rules, numeric_column. intros Hrules Hlabels.
  assert (length (to_dict_records (fillna (VStr "") df))
          = length (cells df)) as Hplain.
  { rewrite to_dict_records_labels by done.
    by rewrite length_fmap, fillna_length. }
  assert (∀ c' i (f : value → value),
    length (to_dict_records
              (assign c' (f <$> to_numeric (column i (fillna (VStr "") df)))
                 (fillna (VStr "") df)))
    = length (cells df)) as Hassign.
  { intros c' i f. rewrite assign_length, fillna_length; [done|].
    by rewrite length_fmap, to_numeric_length, column_length. }
  revert Hrules.
  repeat case_decide; try (intros [= <-]; exact Hplain).
  - destruct (positions "amount" (labels (fillna (VStr "") df)))
      as [|i [|? ?]]; try done.
    intros [= <-]. by apply Hassign.
  - destruct (positions "stock" (labels (fillna (VStr "") df)))
      as [|i [|? ?]]; try done.
    intros [= <-]. by apply Hassign.
Qed.

Lemma has_column_labels raw : has_column raw ↔ union_keys raw ≠ [].
Proof.
  unfold has_column. split.
  - intros [k Hk%union_keys_elem] Hnil. rewrite Hnil in Hk.
    by apply elem_of_nil in Hk.
  - destruct (union_keys raw) as [|k ks] eqn:Hkeys; [done|]. intros _.
    exists k. apply union_keys_elem. rewrite Hkeys. by left.
Qed.

(** One record per row, when the rows have a key at all. *)
Lemma convert_length raw category out :
  convert raw category = Returned out → has_column raw →
  length out = length raw.
Proof.
  intros Hconv Hcol. assert (raw ≠ []) as Hne.
  { destruct Hcol as [k Hk]. by eapply has_key_nonempty. }
  rewrite convert_nonempty in Hconv by done.
  destruct (apply_business_rules _ category) as [df'|e] eqn:Hrules;
    [|done].
  injection Hconv as <-. apply apply_business_rules_length in Hrules.
  - rewrite Hrules. simpl. by rewrite length_fmap.
  - unfold labels. simpl. apply has_column_labels in Hcol.
    by destruct (union_keys raw).
Qed.

(** Rows without any key give a frame without columns, and no record. *)
Lemma convert_no_column raw category out :
  convert raw category = Returned out → ¬ has_column raw → out = [].
Proof.
  intros Hconv Hcol. rewrite has_column_labels in Hcol.
  assert (union_keys raw = []) as Hkeys.
  { by destruct (union_keys raw) as [|k ks]; [|destruct Hcol]. }
  assert (raw ≠ []) as Hne by (intros ->; discriminate Hconv).
  rewrite convert_nonempty in Hconv by done.
  rewrite Hkeys in Hconv.
  assert (∀ df, labels df = [] →
            apply_business_rules df category
            = Returned (fillna (VStr "") df)) as Hrules.
  { intros df Hdf. unfold apply_business_rules.
    change (labels (fillna (VStr "") df)) with (labels df). rewrite Hdf.
    repeat case_decide; try done;
      match goal with H : _ ∈ [] |- _ => by apply elem_of_nil in H end. }
  rewrite Hrules in Hconv by done. by injection Hconv as <-.
Qed.







End converter_rules.







(** C9. On the empty list of rows, whatever the category, [process] raises
    the [AttributeError] of header cleaning instead of returning an empty
    list: the frame built from no rows has a [RangeIndex] for columns, which
    has no string methods. *)
Theorem process_empty_raises :
  ∀ category w,
    Pandas.columns (Pandas.from_records []) = Pandas.RangeIndex 0 ∧
    ∃ msg, (process [] category w).1 = Raised (Exn "AttributeError" msg).
Proof. intros category w. split; [reflexivity|]. eexists. reflexivity. Qed.

(** Header cleaning fails on no other input. *)
Lemma clean_headers_nonempty raw :
  raw ≠ [] → ∃ df, SpreadsheetLogic.clean_headers (Pandas.from_records raw)
                   = Returned df.
Proof. intros Hne. destruct raw; [done|]. by eexists. Qed.

(** Header cleaning on an example: trimmed, lowercased, blanks replaced. *)
Example clean_header_unit_price :
  SpreadsheetLogic.clean_header "  Unit Price " = "unit_price".
Proof. reflexivity. Qed.

(** * Properties of the store primitives *)

Section store_facts.

Implicit Types (w : World) (a : gmap string doc) (ids : list string).

Lemma foldl_sets a ids (ds : list doc) :
  NoDup ids →
  foldl Firestore.apply_write a (zip_with (λ id d, WSet id d) ids ds)
  = list_to_map (zip ids ds) ∪ a.
Proof.
  revert a ds. induction ids as [|id ids IH]; intros a [|d ds] Hnd; simpl;
    try by rewrite (left_id_L ∅ (∪)).
  apply NoDup_cons in Hnd as [Hid Hnd]. rewrite IH by done.
  rewrite <-insert_union_l, <-insert_union_r; [done|].
  apply not_elem_of_list_to_map_1.
  intros ([id' d'] & -> & Hin%elem_of_zip_l)%list_elem_of_fmap. done.
Qed.

Lemma foldl_deletes_lookup a ids i :
  foldl Firestore.apply_write a (WDelete <$> ids) !! i
  = if decide (i ∈ ids) then None else a !! i.
Proof.
  revert a. induction ids as [|id ids IH]; intros a; csimpl.
  - done.
  - rewrite IH. destruct (decide (i ∈ ids)) as [Hin|Hin].
    + rewrite decide_True; [done|by right].
    + destruct (decide (id = i)) as [->|Hne].
      * rewrite lookup_delete_eq. rewrite decide_True; [done|by left].
      * rewrite lookup_delete_ne by done.
        rewrite decide_False; [done|].
        intros [?|?]%elem_of_cons; congruence.
Qed.

(** Deleting the documents a query returned leaves the others. *)
Lemma foldl_deletes_query a task_id :
  foldl Firestore.apply_write a
    (WDelete <$> (map_to_list (Firestore.records_of task_id a)).*1)
  = filter (λ kd, ¬ Firestore.has_source task_id kd.2) a.
Proof.
  apply map_eq. intros i. rewrite foldl_deletes_lookup.
  rewrite map_lookup_filter.
  destruct (a !! i) as [d|] eqn:Hi; simpl.
  - destruct (decide (Firestore.has_source task_id d)) as [Hs|Hs].
    + rewrite decide_True.
      * rewrite option_guard_False; [done|]. simpl. tauto.
      * apply list_elem_of_fmap. exists (i, d). split; [done|].
        apply elem_of_map_to_list. unfold Firestore.records_of.
        by apply map_lookup_filter_Some.
    + rewrite decide_False.
      * by rewrite option_guard_True.
      * intros ([i' d'] & -> & Hin%elem_of_map_to_list)%list_elem_of_fmap.
        unfold Firestore.records_of in Hin.
        apply map_lookup_filter_Some in Hin as [Hl Hs']. simpl in *.
        congruence.
  - by case_decide.
Qed.

Lemma query_length a task_id :
  length (WDelete <$> (map_to_list (Firestore.records_of task_id a)).*1)
  = size (Firestore.records_of task_id a).
Proof. rewrite !length_fmap. apply length_map_to_list. Qed.

Lemma published_record_source request task_id item :
  published_record request task_id item !! "sourceFileId"
  = Some (VStr task_id).
Proof.
  unfold published_record.
  rewrite !lookup_insert_ne by done. apply lookup_insert_eq.
Qed.

Lemma take_cap_length (processed : list doc) :
  length (take publish_cap processed) = publish_cap `min` length processed.
Proof. apply length_take. Qed.

Lemma published_keys request task_id processed w :
  (zip (fresh_list (length (take publish_cap processed)) (dom (app_data w)))
       (published_record request task_id <$> take publish_cap processed)).*1
  = fresh_list (length (take publish_cap processed)) (dom (app_data w)).
Proof.
  apply fst_zip. by rewrite length_fresh_list, length_fmap.
Qed.

(** The published documents have new ids, ... *)
Lemma published_disjoint request task_id processed w :
  published request task_id processed w ##ₘ app_data w.
Proof.
  apply map_disjoint_dom. unfold published.
  rewrite dom_list_to_map_L, published_keys.
  intros id Hid%elem_of_list_to_set Hdom.
  by apply fresh_list_is_fresh in Hid.
Qed.

(** ... there are as many of them as records in the slice, ... *)
Lemma published_size request task_id processed w :
  size (published request task_id processed w)
  = publish_cap `min` length processed.
Proof.
  unfold published. rewrite map_size_list_to_map.
  - rewrite length_zip_with, length_fresh_list, length_fmap.
    rewrite take_cap_length. lia.
  - rewrite published_keys. apply NoDup_fresh_list.
Qed.

(** ... and each of them names the task. *)
Lemma published_source request task_id processed w id d :
  published request task_id processed w !! id = Some d →
  Firestore.has_source task_id d.
Proof.
  unfold published. intros Hin%elem_of_list_to_map_2.
  apply elem_of_zip_r, list_elem_of_fmap in Hin as (item & -> & _).
  apply published_record_source.
Qed.

Lemma publish_spec env request task_id processed w :
  publish env request task_id processed w
  = match commit_fault env with
    | Some e => (Raised e, w)
    | None =>
        (Returned tt,
         emit (EvCommit
                 (zip_with
                    (λ id item,
                       WSet id (published_record request task_id item))
                    (fresh_list (length (take publish_cap processed))
                       (dom (app_data w)))
                    (take publish_cap processed)))
           (with_app_data
              (published request task_id processed w ∪ app_data w) w))
    end.
Proof.
  unfold publish, bind, Firestore.new_record_ids, Firestore.commit, bind,
    guard.
  destruct (commit_fault env) as [e|]; [done|]. simpl.
  rewrite decide_False.
  2:{ rewrite length_zip_with, length_fresh_list, take_cap_length.
      unfold Firestore.batch_limit, publish_cap. lia. }
  do 3 f_equal. unfold published.
  rewrite <-(zip_with_fmap_r (λ id d, WSet id d)).
  apply foldl_sets, NoDup_fresh_list.
Qed.

End store_facts.

(** * The ingestion job, path by path *)

Section ingestion_facts.

Implicit Types (w : World) (env : Env) (request : ProcessRequest).

Lemma status_history_cons task_id ev evs :
  status_history task_id (ev :: evs)
  = match status_written task_id ev with
    | Some v => v :: status_history task_id evs
    | None => status_history task_id evs
    end.
Proof. reflexivity. Qed.

Lemma status_history_app task_id evs1 evs2 :
  status_history task_id (evs1 ++ evs2)
  = status_history task_id evs1 ++ status_history task_id evs2.
Proof. apply omap_app. Qed.

Lemma new_events_app w w' evs :
  trace w' = trace w ++ evs → new_events w w' = evs.
Proof. intros H. unfold new_events. rewrite H. apply drop_app_length. Qed.

Lemma quiet_status_history task_id evs :
  Forall quiet evs → status_history task_id evs = [].
Proof.
  induction 1 as [|ev evs Hev _ IH]; [done|].
  rewrite status_history_cons, IH. by destruct ev.
Qed.

Lemma no_send_nil : no_send [].
Proof. intros m b. apply not_elem_of_nil. Qed.

Lemma no_send_cons ev evs :
  (∀ m b, ev ≠ EvSend m b) → no_send evs → no_send (ev :: evs).
Proof.
  intros Hev Hevs m b [Heq|Hin]%elem_of_cons; [by eapply Hev|].
  by eapply Hevs.
Qed.

Lemma no_send_app evs1 evs2 :
  no_send evs1 → no_send evs2 → no_send (evs1 ++ evs2).
Proof.
  intros H1 H2 m b [Hin|Hin]%elem_of_app; [by eapply H1|by eapply H2].
Qed.

Lemma quiet_no_send evs : Forall quiet evs → no_send evs.
Proof.
  induction 1 as [|ev evs Hev _ IH]; [apply no_send_nil|].
  apply no_send_cons; [|done]. intros m b ->. done.
Qed.

(** A successful run of steps A to E. *)
Lemma ingest_returned env request task_id w processed w2 :
  ingest env request task_id w = (Returned processed, w2) →
  set_fault env = None ∧ commit_fault env = None ∧
  update_fault env = None ∧
  ∃ content raw,
    download_fault env = None ∧
    bucket w !! filePath request = Some content ∧
    read_rows env request content = Returned raw ∧
    SpreadsheetLogic.convert raw (category request) = Returned processed ∧
    w2 = {| processing_tasks :=
              <[task_id := completed_fields processed ∪ task_data request]>
                (<[task_id := task_data request]> (processing_tasks w));
            app_data := published request task_id processed w ∪ app_data w;
            bucket := bucket w;
            disk := <[temp_path request := content]> (disk w);
            trace := trace w
                       ++ ingest_events request task_id raw processed w |}.
Proof.
  unfold ingest, bind, Firestore.task_set, bind, guard, download_to_filename.
  destruct (set_fault env) as [e|]; [done|]. simpl.
  destruct (download_fault env) as [e|]; [done|].
  destruct (bucket w !! filePath request) as [content|]; [|done].
  unfold read_table. simpl. rewrite lookup_insert_eq.
  destruct (read_rows env request content) as [raw|e] eqn:Hread; [|done].
  destruct (SpreadsheetLogic.convert raw (category request))
    as [processed'|e] eqn:Hconv; [|done].
  rewrite publish_spec. destruct (commit_fault env) as [e|]; [done|].
  unfold Firestore.task_update, bind, guard.
  destruct (update_fault env) as [e|]; [done|]. simpl.
  rewrite lookup_insert_eq. unfold ret. intros [= <- <-].
  split_and!; [done..|]. exists content, raw. split_and!; [done..|].
  unfold emit, with_tasks, with_app_data, with_disk. simpl.
  f_equal. by rewrite <-!(assoc_L (++)).
Qed.

(** A failed run of steps A to E: either the task was never written, or it
    was written as [processing] and nothing else was written on any task;
    the batch was committed or not. *)
Lemma ingest_raised env request task_id w e w2 :
  ingest env request task_id w = (Raised e, w2) →
  (set_fault env = Some e ∧ w2 = w) ∨
  (set_fault env = None ∧
   processing_tasks w2
   = <[task_id := task_data request]> (processing_tasks w) ∧
   bucket w2 = bucket w ∧
   (app_data w2 = app_data w ∨
    ∃ processed,
      app_data w2 = published request task_id processed w ∪ app_data w) ∧
   ∃ evs,
     trace w2 = trace w ++ EvTaskSet task_id (task_data request) :: evs ∧
     Forall quiet evs).
Proof.
  assert (∀ (evs : list event) (ev : event) (pre : list event),
            (pre ++ [ev]) ++ evs = pre ++ ev :: evs) as Hsnoc.
  { intros. by rewrite <-(assoc_L (++)). }
  unfold ingest, bind, Firestore.task_set, bind, guard, download_to_filename.
  destruct (set_fault env) as [e0|]; [intros [= <- <-]; by left|].
  simpl. intros Hrun. right. split; [done|]. revert Hrun.
  destruct (download_fault env) as [e0|].
  { intros [= <- <-]. destruct (partial_download env); simpl;
      (split_and!; [done|done|by left|]); (exists []; by split). }
  destruct (bucket w !! filePath request) as [content|].
  2:{ intros [= <- <-]. destruct (partial_download env); simpl;
      (split_and!; [done|done|by left|]); (exists []; by split). }
  unfold read_table. simpl. rewrite lookup_insert_eq.
  destruct (read_rows env request content) as [raw|e0].
  2:{ intros [= <- <-]. simpl. split_and!; [done|done|by left|].
      (exists []; by split). }
  destruct (SpreadsheetLogic.convert raw (category request))
    as [processed|e0].
  2:{ intros [= <- <-]. simpl. split_and!; [done|done|by left|].
      eexists [_]. split; [by rewrite Hsnoc|by repeat constructor]. }
  rewrite publish_spec. destruct (commit_fault env) as [e0|].
  { intros [= <- <-]. simpl. split_and!; [done|done|by left|].
    eexists [_]. split; [by rewrite Hsnoc|by repeat constructor]. }
  unfold Firestore.task_update, bind, guard.
  destruct (update_fault env) as [e0|]; simpl.
  2:{ by rewrite lookup_insert_eq. }
  intros [= <- <-]. simpl. split_and!; [done|done| |].
  - right. by exists processed.
  - eexists [_; _]. split; [by rewrite !Hsnoc|by repeat constructor].
Qed.

(** The push never fails the job. *)
Lemma notify_spec env request task_id w :
  notify env request task_id w
  = (Returned tt,
     {| processing_tasks := processing_tasks w;
        app_data := app_data w;
        bucket := bucket w;
        disk := disk w;
        trace := trace w ++ push_events env request task_id |}).
Proof.
  unfold notify, try_except, send, push_events, print, emit.
  destruct (send_fault env); [|done].
  cbn [processing_tasks app_data bucket disk trace].
  by rewrite <-(assoc_L (++)).
Qed.

(** The job, in terms of its steps A to E. *)
Lemma process_file_task_unfold env request w :
  process_file_task env request w
  = let task_id := next_task_id w in
    try_finally
      (λ w1,
         match ingest env request task_id w1 with
         | (Returned _, w2) => notify env request task_id w2
         | (Raised e, w2) => except_block env (Some task_id) e w2
         end)
     (remove_if_exists (temp_path request))
     (emit (EvPrint (start_line request)) w).
Proof.
  unfold process_file_task, try_finally, try_block, bind. simpl.
  fold (next_task_id w).
  destruct (ingest env request (next_task_id w)
              (emit (EvPrint (start_line request)) w)) as [[processed|e] w2];
    [|done].
  rewrite notify_spec. done.
Qed.

End ingestion_facts.

Section lifecycle_facts.

Implicit Types (w : World) (env : Env) (request : ProcessRequest).

Lemma task_data_status request :
  task_data request !! "status" = Some (VStr "processing").
Proof.
  unfold task_data. case_decide; [|done].
  destruct (expiryDate request) as [day|]; [case_decide|];
    by rewrite ?lookup_insert_ne by done.
Qed.

Lemma completed_fields_lookup processed (d : doc) :
  (completed_fields processed ∪ d) !! "status" = Some (VStr "completed") ∧
  (completed_fields processed ∪ d) !! "recordCount"
  = Some (VInt (length processed)) ∧
  (completed_fields processed ∪ d) !! "notificationSent"
  = Some (VBool true).
Proof. split_and!; by apply lookup_union_Some_l. Qed.

Lemma error_fields_lookup e (d : doc) :
  (error_fields e ∪ d) !! "status" = Some (VStr "error") ∧
  (error_fields e ∪ d) !! "errorMessage" = Some (VStr (str e)).
Proof. split_and!; by apply lookup_union_Some_l. Qed.

Lemma status_written_set task_id (d : doc) :
  status_written task_id (EvTaskSet task_id d) = d !! "status".
Proof. unfold status_written. by rewrite decide_True. Qed.

Lemma status_written_update task_id (fields : doc) :
  status_written task_id (EvTaskUpdate task_id fields) = fields !! "status".
Proof. unfold status_written. by rewrite decide_True. Qed.

Lemma completed_fields_status processed :
  completed_fields processed !! "status" = Some (VStr "completed").
Proof. reflexivity. Qed.

Lemma error_fields_status e :
  error_fields e !! "status" = Some (VStr "error").
Proof. reflexivity. Qed.

Lemma next_task_id_fresh w : processing_tasks w !! next_task_id w = None.
Proof.
  unfold next_task_id. apply (not_elem_of_dom (D := gset string)).
  apply is_fresh.
Qed.

(** The [finally] block: the scratch file is gone afterwards, and nothing
    else changes. *)
Lemma try_finally_remove {A} (body : Py A) path w r w' :
  body w = (r, w') →
  ∃ w'' evs,
    try_finally body (remove_if_exists path) w = (r, w'') ∧
    processing_tasks w'' = processing_tasks w' ∧
    app_data w'' = app_data w' ∧
    bucket w'' = bucket w' ∧
    trace w'' = trace w' ++ evs ∧
    (evs = [] ∨ evs = [EvRemove path]) ∧
    disk w'' !! path = None ∧
    (∀ p, p ≠ path → disk w'' !! p = disk w' !! p).
Proof.
  intros Hbody. unfold try_finally, remove_if_exists. rewrite Hbody.
  destruct (disk w' !! path) as [content|] eqn:Hfile.
  - eexists _, [EvRemove path]. split; [done|]. simpl.
    split_and!; [done..|by right|apply lookup_delete_eq|].
    intros p Hp. by apply lookup_delete_ne.
  - exists w', []. split; [done|].
    split_and!; [done..|by rewrite app_nil_r|by left|done|done].
Qed.

(** The [except] block on a task that exists. *)
Lemma except_block_spec env task_id e w :
  except_block env (Some task_id) e w
  = let w1 := emit (EvPrint ("Error: " ++ str e)) w in
    match error_update_fault env, processing_tasks w !! task_id with
    | Some e', _ => (Raised e', w1)
    | None, None =>
        (Raised (Exn "NotFound" ("No document to update: " ++ task_id)), w1)
    | None, Some d =>
        (Returned tt,
         emit (EvTaskUpdate task_id (error_fields e))
           (with_tasks
              (<[task_id := error_fields e ∪ d]> (processing_tasks w)) w1))
    end.
Proof.
  unfold except_block, bind, print, Firestore.task_update, bind, guard.
  simpl. destruct (error_update_fault env); [done|]. simpl.
  by destruct (processing_tasks w !! task_id).
Qed.

(** The four ways an ingestion ends. *)
Lemma process_file_task_cases env request w :
  let task_id := next_task_id w in
  let res := process_file_task env request w in
  ∃ evs,
    trace res.2 = trace w ++ evs ∧
    bucket res.2 = bucket w ∧
    disk res.2 !! temp_path request = None ∧
    ((res.1 = Returned tt ∧
      ∃ processed,
        processing_tasks res.2
        = <[task_id := completed_fields processed ∪ task_data request]>
            (processing_tasks w) ∧
        app_data res.2
        = published request task_id processed w ∪ app_data w ∧
        status_history task_id evs = [VStr "processing"; VStr "completed"] ∧
        ∃ raw cleanup,
          evs = EvPrint (start_line request)
                  :: ingest_events request task_id raw processed w
                  ++ push_events env request task_id ++ cleanup ∧
          no_send cleanup)
     ∨
     (res.1 = Returned tt ∧
      ∃ e,
        processing_tasks res.2
        = <[task_id := error_fields e ∪ task_data request]>
            (processing_tasks w) ∧
        (app_data res.2 = app_data w ∨
         ∃ processed,
           app_data res.2
           = published request task_id processed w ∪ app_data w) ∧
        status_history task_id evs = [VStr "processing"; VStr "error"] ∧
        no_send evs)
     ∨
     (∃ e,
        res.1 = Raised e ∧
        processing_tasks res.2
        = <[task_id := task_data request]> (processing_tasks w) ∧
        (app_data res.2 = app_data w ∨
         ∃ processed,
           app_data res.2
           = published request task_id processed w ∪ app_data w) ∧
        status_history task_id evs = [VStr "processing"] ∧
        no_send evs)
     ∨
     (∃ e,
        res.1 = Raised e ∧
        processing_tasks res.2 = processing_tasks w ∧
        app_data res.2 = app_data w ∧
        status_history task_id evs = [] ∧
        no_send evs)).
Proof.
  intros task_id res. subst res. rewrite process_file_task_unfold.
  fold task_id. cbv zeta.
  set (w1 := emit (EvPrint (start_line request)) w).
  set (body := λ w1 : World,
         match ingest env request task_id w1 with
         | (Returned _, w2) => notify env request task_id w2
         | (Raised e, w2) => except_block env (Some task_id) e w2
         end).
  destruct (body w1) as [r w'] eqn:Hbody.
  destruct (try_finally_remove body (temp_path request) w1 r w' Hbody)
    as (w'' & evs3 & -> & Htasks & Happ & Hbucket & Htrace & Hevs3 & Hdisk
        & _).
  cbn [fst snd]. rewrite Htasks, Happ, Hbucket, Htrace.
  assert (status_history task_id evs3 = []) as Hh3.
  { by destruct Hevs3 as [-> | ->]. }
  assert (no_send evs3) as Hn3.
  { destruct Hevs3 as [-> | ->]; [apply no_send_nil|].
    apply no_send_cons; [done|apply no_send_nil]. }
  clear Htasks Happ Hbucket Htrace Hevs3.
  subst body. cbv beta in Hbody.
  destruct (ingest env request task_id w1) as [[processed|e] w2] eqn:Hrun.
  - (* steps A to E succeeded *)
    apply ingest_returned in Hrun
      as (_ & _ & _ & content & raw & _ & _ & _ & _ & ->).
    rewrite notify_spec in Hbody. injection Hbody as <- <-.
    cbn [trace processing_tasks app_data bucket disk].
    assert (status_history task_id
              (ingest_events request task_id raw processed w1)
            = [VStr "processing"; VStr "completed"]) as Hhist.
    { unfold ingest_events.
      rewrite !status_history_cons, status_written_set,
        status_written_update, task_data_status, completed_fields_status.
      reflexivity. }
    assert (status_history task_id (push_events env request task_id) = [])
      as Hpush.
    { unfold push_events. by destruct (send_fault env). }
    exists (EvPrint (start_line request)
            :: ingest_events request task_id raw processed w1
            ++ push_events env request task_id ++ evs3).
    split_and!.
    + subst w1. cbn [trace emit]. rewrite <-!(assoc_L (++)). reflexivity.
    + reflexivity.
    + exact Hdisk.
    + left. split; [reflexivity|]. exists processed. split_and!.
      * apply insert_insert_eq.
      * reflexivity.
      * rewrite status_history_cons.
        change (status_written _ _) with (@None value).
        rewrite !status_history_app, Hhist, Hpush, Hh3. reflexivity.
      * by exists raw, evs3.
  - (* steps A to E raised *)
    rewrite except_block_spec in Hbody. cbv zeta in Hbody.
    apply ingest_raised in Hrun
      as [[Hset ->]|(Hset & Htasks & Hbucket & Happ & evs & Htrace & Hquiet)].
    2: pose proof (quiet_status_history task_id evs Hquiet) as Hevs.
    2: pose proof (quiet_no_send evs Hquiet) as Hnevs.
    + (* the task was never written *)
      assert (processing_tasks w1 !! task_id = None) as Hfresh
        by exact (next_task_id_fresh w).
      rewrite Hfresh in Hbody.
      exists (EvPrint (start_line request)
              :: EvPrint ("Error: " ++ str e) :: evs3).
      assert (∃ e', r = Raised e' ∧
                    w' = emit (EvPrint ("Error: " ++ str e)) w1)
        as (e' & -> & ->).
      { destruct (error_update_fault env); injection Hbody as <- <-; eauto. }
      split_and!.
      * subst w1. cbn [trace emit]. rewrite <-!(assoc_L (++)). reflexivity.
      * reflexivity.
      * exact Hdisk.
      * do 3 right. exists e'. split_and!; [reflexivity..| |].
        -- rewrite !status_history_cons.
           change (status_written task_id (EvPrint _)) with (@None value).
           exact Hh3.
        -- by repeat apply no_send_cons.
    + (* the task was written as processing *)
      rewrite Htasks, lookup_insert_eq in Hbody.
      assert (status_history task_id
                (EvPrint (start_line request)
                 :: EvTaskSet task_id (task_data request) :: evs
                 ++ [EvPrint ("Error: " ++ str e)])
              = [VStr "processing"]) as Hhist.
      { rewrite !status_history_cons, status_written_set, task_data_status.
        change (status_written task_id (EvPrint _)) with (@None value).
        by rewrite status_history_app, Hevs. }
      assert (trace w2 ++ [EvPrint ("Error: " ++ str e)]
              = trace w ++ EvPrint (start_line request)
                  :: EvTaskSet task_id (task_data request) :: evs
                  ++ [EvPrint ("Error: " ++ str e)]) as Htrace'.
      { rewrite Htrace. subst w1. cbn [trace emit].
        rewrite <-!(assoc_L (++)). reflexivity. }
      destruct (error_update_fault env) as [e'|];
        injection Hbody as <- <-.
      * exists ((EvPrint (start_line request)
                 :: EvTaskSet task_id (task_data request) :: evs
                 ++ [EvPrint ("Error: " ++ str e)]) ++ evs3).
        split_and!.
        -- cbn [trace emit]. rewrite Htrace', <-(assoc_L (++)). reflexivity.
        -- exact Hbucket.
        -- exact Hdisk.
        -- do 2 right. left. exists e'.
           split_and!; [reflexivity|exact Htasks|exact Happ| |].
           ++ by rewrite status_history_app, Hhist, Hh3.
           ++ apply no_send_app; [|done].
              do 2 (apply no_send_cons; [done|]).
              apply no_send_app; [done|].
              apply no_send_cons; [done|apply no_send_nil].
      * exists ((EvPrint (start_line request)
                 :: EvTaskSet task_id (task_data request) :: evs
                 ++ [EvPrint ("Error: " ++ str e)])
                ++ [EvTaskUpdate task_id (error_fields e)] ++ evs3).
        split_and!.
        -- cbn [trace emit with_tasks].
           rewrite Htrace', <-!(assoc_L (++)). reflexivity.
        -- exact Hbucket.
        -- exact Hdisk.
        -- right. left. split; [reflexivity|]. exists e.
           cbn [processing_tasks app_data emit with_tasks].
           split_and!; [|exact Happ| |].
           ++ apply insert_insert_eq.
           ++ rewrite !status_history_app, Hhist, Hh3.
              rewrite status_history_cons, status_written_update,
                error_fields_status. reflexivity.
           ++ apply no_send_app.
              { do 2 (apply no_send_cons; [done|]).
                apply no_send_app; [done|].
                apply no_send_cons; [done|apply no_send_nil]. }
              apply no_send_cons; [done|done].
Qed.


(** The job, by the outcome of steps A to E. *)
Lemma process_file_task_run env request w :
  let task_id := next_task_id w in
  let res := process_file_task env request w in
  match ingest env request task_id (emit (EvPrint (start_line request)) w)
  with
  | (Returned processed, w2) =>
      res.1 = Returned tt ∧
      processing_tasks res.2
      = <[task_id := completed_fields processed ∪ task_data request]>
          (processing_tasks w) ∧
      app_data res.2 = published request task_id processed w ∪ app_data w
  | (Raised e, w2) =>
      app_data res.2 = app_data w2 ∧
      match set_fault env, error_update_fault env with
      | Some _, _ =>
          (∃ e', res.1 = Raised e') ∧
          processing_tasks res.2 = processing_tasks w
      | None, Some e' =>
          res.1 = Raised e' ∧
          processing_tasks res.2
          = <[task_id := task_data request]> (processing_tasks w)
      | None, None =>
          res.1 = Returned tt ∧
          processing_tasks res.2
          = <[task_id := error_fields e ∪ task_data request]>
              (processing_tasks w)
      end
  end.
Proof.
  intros task_id res. subst res.
  rewrite process_file_task_unfold. fold task_id. cbv zeta.
  set (w1 := emit (EvPrint (start_line request)) w).
  set (body := λ w1 : World,
         match ingest env request task_id w1 with
         | (Returned _, w2) => notify env request task_id w2
         | (Raised e, w2) => except_block env (Some task_id) e w2
         end).
  destruct (body w1) as [r w'] eqn:Hbody.
  destruct (try_finally_remove body (temp_path request) w1 r w' Hbody)
    as (w'' & evs3 & -> & Htasks & Happ & _).
  cbn [fst snd]. rewrite Htasks, Happ. clear Htasks Happ.
  subst body. cbv beta in Hbody.
  destruct (ingest env request task_id w1) as [[processed|e] w2] eqn:Hrun.
  - apply ingest_returned in Hrun
      as (_ & _ & _ & content & raw & _ & _ & _ & _ & ->).
    rewrite notify_spec in Hbody. injection Hbody as <- <-.
    cbn [processing_tasks app_data].
    split_and!; [reflexivity|apply insert_insert_eq|reflexivity].
  - rewrite except_block_spec in Hbody. cbv zeta in Hbody.
    apply ingest_raised in Hrun
      as [[Hset ->]|(Hset & Htasks & _)]; rewrite Hset.
    + assert (processing_tasks w1 !! task_id = None) as Hfresh
        by exact (next_task_id_fresh w).
      rewrite Hfresh in Hbody.
      destruct (error_update_fault env); injection Hbody as <- <-;
        (split; [reflexivity|]); (split; [by eexists|reflexivity]).
    + rewrite Htasks, lookup_insert_eq in Hbody.
      destruct (error_update_fault env) as [e'|];
        injection Hbody as <- <-; cbn [processing_tasks app_data emit
                                       with_tasks];
        (split; [reflexivity|]).
      * split; [reflexivity|exact Htasks].
      * split; [reflexivity|]. apply insert_insert_eq.
Qed.

End lifecycle_facts.

Section ingestion_claims.

Implicit Types (w : World) (env : Env) (request : ProcessRequest).

(** The forward reading of [ingest_returned]. *)
Lemma ingest_success env request task_id w content raw processed :
  set_fault env = None → download_fault env = None →
  bucket w !! filePath request = Some content →
  read_rows env request content = Returned raw →
  SpreadsheetLogic.convert raw (category request) = Returned processed →
  commit_fault env = None → update_fault env = None →
  ingest env request task_id w
  = (Returned processed,
     {| processing_tasks :=
          <[task_id := completed_fields processed ∪ task_data request]>
            (<[task_id := task_data request]> (processing_tasks w));
        app_data := published request task_id processed w ∪ app_data w;
        bucket := bucket w;
        disk := <[temp_path request := content]> (disk w);
        trace := trace w
                   ++ ingest_events request task_id raw processed w |}).
Proof.
  intros Hset Hdown Hobj Hread Hconv Hcommit Hupdate.
  unfold ingest, bind, Firestore.task_set, bind, guard, download_to_filename.
  rewrite Hset. cbn [ret fst snd bucket emit with_tasks].
  rewrite Hdown, Hobj. unfold read_table.
  cbn [disk with_disk emit]. rewrite lookup_insert_eq.
  fold (read_rows env request content). rewrite Hread.
  rewrite process_result, Hconv, publish_spec, Hcommit.
  unfold Firestore.task_update, bind, guard. rewrite Hupdate.
  cbn [ret processing_tasks emit with_tasks with_app_data with_disk].
  rewrite lookup_insert_eq. unfold ret, emit, with_tasks, ingest_events.
  cbn [processing_tasks app_data bucket disk trace with_app_data with_disk].
  do 2 f_equal. by rewrite <-!(assoc_L (++)).
Qed.

(** What the job leaves behind when nothing fails. *)
Lemma process_file_task_success env request w content raw processed :
  set_fault env = None → download_fault env = None →
  bucket w !! filePath request = Some content →
  read_rows env request content = Returned raw →
  SpreadsheetLogic.convert raw (category request) = Returned processed →
  commit_fault env = None → update_fault env = None →
  let task_id := next_task_id w in
  let res := process_file_task env request w in
  res.1 = Returned tt ∧
  processing_tasks res.2
  = <[task_id := completed_fields processed ∪ task_data request]>
      (processing_tasks w) ∧
  app_data res.2 = published request task_id processed w ∪ app_data w ∧
  new_events w res.2
  = EvPrint (start_line request)
      :: ingest_events request task_id raw processed w
      ++ push_events env request task_id
      ++ [EvRemove (temp_path request)].
Proof.
  intros Hset Hdown Hobj Hread Hconv Hcommit Hupdate task_id res.
  subst res. rewrite process_file_task_unfold. fold task_id. cbv zeta.
  unfold try_finally.
  rewrite (ingest_success env request task_id _ content raw processed)
    by done.
  rewrite notify_spec. unfold remove_if_exists.
  cbn [disk]. rewrite lookup_insert_eq.
  cbn [fst snd processing_tasks app_data emit with_disk trace].
  split_and!; [reflexivity|apply insert_insert_eq|reflexivity|].
  apply new_events_app. cbn [trace emit with_disk].
  rewrite <-!(assoc_L (++)). reflexivity.
Qed.

End ingestion_claims.




(** C1, as the code has it. When an ingestion ends [completed], the file
    was fetched, read and converted, and [recordCount] on the task is the
    number of converted rows. The records it published are new documents,
    each carrying the task's id as [sourceFileId], and there are
    min(400, recordCount) of them: the two counts agree exactly when at most
    400 rows were converted. *)
Theorem published_records_provenance env request w :
  let task_id := next_task_id w in
  let res := process_file_task env request w in
  task_field res.2 task_id "status" = Some (VStr "completed") →
  ∃ content raw processed new,
    bucket w !! filePath request = Some content ∧
    read_rows env request content = Returned raw ∧
    (process raw (category request) w).1 = Returned processed ∧
    task_field res.2 task_id "recordCount"
    = Some (VInt (length processed)) ∧
    app_data res.2 = new ∪ app_data w ∧
    new ##ₘ app_data w ∧
    (∀ id d, new !! id = Some d → d !! "sourceFileId" = Some (VStr task_id)) ∧
    size new = publish_cap `min` length processed ∧
    (size new = length processed ↔ length processed ≤ publish_cap).
Proof.
  intros task_id res Hstatus.
  pose proof (process_file_task_run env request w) as Hrun.
  fold task_id res in Hrun. cbv zeta in Hrun. unfold task_field in *.
  destruct (ingest env request task_id
              (emit (EvPrint (start_line request)) w))
    as [[processed|e] w2] eqn:Hingest.
  - destruct Hrun as (_ & Htasks & Happ).
    apply ingest_returned in Hingest
      as (_ & _ & _ & content & raw & _ & Hobj & Hread & Hconv & _).
    exists content, raw, processed, (published request task_id processed w).
    rewrite Htasks, lookup_insert_eq. cbn [mbind option_bind].
    split_and!.
    + exact Hobj.
    + exact Hread.
    + by rewrite process_result.
    + apply completed_fields_lookup.
    + exact Happ.
    + apply published_disjoint.
    + intros id d. apply published_source.
    + apply published_size.
    + rewrite published_size. lia.
  - exfalso. destruct Hrun as (_ & Hrun).
    destruct (set_fault env) as [e1|].
    { destruct Hrun as (_ & Htasks). rewrite Htasks in Hstatus.
      unfold task_id in Hstatus. by rewrite next_task_id_fresh in Hstatus. }
    destruct (error_update_fault env) as [e1|];
      destruct Hrun as (_ & Htasks); rewrite Htasks, lookup_insert_eq in Hstatus;
      cbn [mbind option_bind] in Hstatus.
    + by rewrite task_data_status in Hstatus.
    + by rewrite (proj1 (error_fields_lookup e _)) in Hstatus.
Qed.

Section big_upload.

Lemma big_upload_header : only_header "amount" Sample.rows_401 "amount".
Proof.
  assert (∀ k, has_key Sample.rows_401 k → k = "amount") as Hkeys.
  { intros k (r & [-> _]%elem_of_replicate & Hk).
    by apply list_elem_of_singleton in Hk. }
  split_and!.
  - exists [("amount", VStr "1")]. split.
    + by apply elem_of_replicate.
    + by apply list_elem_of_singleton.
  - vm_compute. reflexivity.
  - intros k Hk _. by apply Hkeys.
Qed.

(** The sample upload with 401 rows, in full. *)
Lemma big_upload_run :
  let task_id := next_task_id Sample.world in
  let res :=
    process_file_task Sample.env_401 Sample.request Sample.world in
  ∃ processed,
    length processed = 401 ∧
    res.1 = Returned tt ∧
    processing_tasks res.2
    = <[task_id := completed_fields processed
                     ∪ task_data Sample.request]> ∅ ∧
    app_data res.2
    = published Sample.request task_id processed Sample.world.
Proof.
  intros task_id res.
  destruct (financial_rule Sample.rows_401 "amount" big_upload_header)
    as (processed & Hconv & Hlen & _).
  exists processed. split.
  { rewrite Hlen. apply length_replicate. }
  destruct (process_file_task_success Sample.env_401 Sample.request
              Sample.world "Amount,12.5,bad" Sample.rows_401 processed)
    as (Hr & Htasks & Happ & _); try reflexivity.
  { exact Hconv. }
  split_and!; [exact Hr|exact Htasks|].
  subst res. rewrite Happ. apply (right_id_L ∅ (∪)).
Qed.

End big_upload.

(** C1 as stated fails on an upload of 401 rows: the task ends [completed]
    with [recordCount] 401 while 400 records carry its id. *)
Lemma record_count_above_published :
  let task_id := next_task_id Sample.world in
  let res := process_file_task Sample.env_401 Sample.request Sample.world in
  task_field res.2 task_id "status" = Some (VStr "completed") ∧
  task_field res.2 task_id "recordCount" = Some (VInt 401) ∧
  size (Firestore.records_of task_id (app_data res.2)) = 400.
Proof.
  intros task_id res.
  destruct big_upload_run as (processed & Hlen & _ & Htasks & Happ).
  fold task_id res in Htasks, Happ. unfold task_field.
  rewrite Htasks, Happ, lookup_insert_eq. simpl.
  destruct (completed_fields_lookup processed (task_data Sample.request))
    as (Hstatus & Hcount & _).
  split_and!.
  - exact Hstatus.
  - by rewrite Hcount, Hlen.
  - unfold Firestore.records_of. rewrite map_filter_id.
    + by rewrite published_size, Hlen.
    + intros id d. apply published_source.
Qed.

(** A run of C1: the sample upload of two rows ends [completed] with
    [recordCount] 2 and two new records. *)
Lemma published_records_provenance_witness :
  let task_id := next_task_id Sample.world in
  let res := process_file_task Sample.env Sample.request Sample.world in
  task_field res.2 task_id "status" = Some (VStr "completed") ∧
  task_field res.2 task_id "recordCount" = Some (VInt 2) ∧
  ∃ new, app_data res.2 = new ∪ app_data Sample.world ∧ size new = 2.
Proof.
  intros task_id res.
  assert (task_field res.2 task_id "status" = Some (VStr "completed"))
    as Hstatus by (vm_compute; reflexivity).
  split; [exact Hstatus|].
  destruct (published_records_provenance Sample.env Sample.request
              Sample.world Hstatus)
    as (content & raw & processed & new & Hobj & Hread & Hconv & Hcount
        & Happ & _ & _ & Hsize & _).
  assert (length processed = 2) as Hlen.
  { vm_compute in Hobj. injection Hobj as <-.
    vm_compute in Hread. injection Hread as <-.
    rewrite process_result in Hconv. cbn [fst] in Hconv.
    apply convert_length in Hconv; [exact Hconv|].
    exists "Amount". apply union_keys_elem. vm_compute. left. }
  rewrite Hlen in Hcount, Hsize.
  split; [exact Hcount|].
  exists new. split; [exact Happ|exact Hsize].
Defined.

Section failure_paths.

Implicit Types (w : World) (env : Env) (request : ProcessRequest).



End failure_paths.




Section notification_facts.

Implicit Types (w : World) (env : Env) (request : ProcessRequest).

Lemma push_events_send env request task_id m delivered :
  EvSend m delivered ∈ push_events env request task_id →
  m = sync_message request task_id ∧
  push_events env request task_id
  = EvSend m delivered
      :: match send_fault env with
         | Some e => [EvPrint ("Notification error: " ++ str e)]
         | None => []
         end ∧
  (delivered = false ↔ is_Some (send_fault env)).
Proof.
  unfold push_events. destruct (send_fault env) as [e|];
    intros [Heq|Hin]%elem_of_cons.
  - injection Heq as -> ->. split_and!; [done..|]. split; [by eexists|done].
  - by apply list_elem_of_singleton in Hin.
  - injection Heq as -> ->. split_and!; [done..|].
    split; [intros [=]|by intros [? [=]]].
  - by apply elem_of_nil in Hin.
Qed.

Lemma ingest_events_no_send request task_id raw processed w :
  no_send (ingest_events request task_id raw processed w).
Proof.
  unfold ingest_events. repeat (apply no_send_cons; [done|]).
  apply no_send_nil.
Qed.

(** The job does the same to the store and to the disk whatever happens
    to the push. *)
Lemma send_fault_irrelevant env request w fault :
  let res := process_file_task env request w in
  let res' := process_file_task (with_send_fault fault env) request w in
  res'.1 = res.1 ∧
  processing_tasks res'.2 = processing_tasks res.2 ∧
  app_data res'.2 = app_data res.2 ∧
  disk res'.2 = disk res.2.
Proof.
  intros res res'. subst res res'. rewrite !process_file_task_unfold.
  cbv zeta. unfold try_finally.
  change (ingest (with_send_fault fault env)) with (ingest env).
  change (except_block (with_send_fault fault env))
    with (except_block env).
  destruct (ingest env request (next_task_id w)
              (emit (EvPrint (start_line request)) w))
    as [[processed|e] w2]; [|done].
  rewrite !notify_spec. unfold remove_if_exists. cbn [disk].
  by destruct (disk w2 !! temp_path request).
Qed.

End notification_facts.

(** C8. The job's outcome, the tasks, the published records and the disk
    are the same whatever the push does. When a push is attempted, the
    completion update (status [completed], [recordCount],
    [notificationSent] true) was applied before it, the job returns, and the
    three fields still hold at the end; a failed push is followed by the
    line that logs its error. *)
Theorem notification_failure_harmless env request w :
  let task_id := next_task_id w in
  let res := process_file_task env request w in
  (∀ fault,
     let res' := process_file_task (with_send_fault fault env) request w in
     res'.1 = res.1 ∧
     processing_tasks res'.2 = processing_tasks res.2 ∧
     app_data res'.2 = app_data res.2 ∧
     disk res'.2 = disk res.2) ∧
  (∀ m delivered,
     EvSend m delivered ∈ new_events w res.2 →
     ∃ processed before after,
       new_events w res.2 = before ++ EvSend m delivered :: after ∧
       no_send before ∧
       EvTaskUpdate task_id (completed_fields processed) ∈ before ∧
       res.1 = Returned tt ∧
       task_field res.2 task_id "status" = Some (VStr "completed") ∧
       task_field res.2 task_id "recordCount"
       = Some (VInt (length processed)) ∧
       task_field res.2 task_id "notificationSent" = Some (VBool true) ∧
       (delivered = false →
        ∃ e, send_fault env = Some e ∧
             head after = Some (EvPrint ("Notification error: " ++ str e)))).
Proof.
  intros task_id res. split.
  { intros fault. apply send_fault_irrelevant. }
  intros m delivered Hsend.
  destruct (process_file_task_cases env request w)
    as (evs & Htrace & _ & _ & Hcases).
  fold task_id res in Htrace, Hcases.
  rewrite (new_events_app _ _ _ Htrace) in Hsend |- *.
  destruct Hcases as [(Hr & processed & Htasks & _ & _ & raw & cleanup & ->
                       & Hclean)
                     |[(_ & _ & _ & _ & _ & Hno)
                     |[(_ & _ & _ & _ & _ & Hno)
                     |(_ & _ & _ & _ & _ & Hno)]]];
    try (by apply Hno in Hsend).
  assert (EvSend m delivered ∈ push_events env request task_id) as Hpush.
  { apply elem_of_cons in Hsend as [[=]|Hsend].
    apply elem_of_app in Hsend as [Hsend|Hsend].
    { by apply ingest_events_no_send in Hsend. }
    apply elem_of_app in Hsend as [Hsend|Hsend]; [done|].
    by apply Hclean in Hsend. }
  destruct (push_events_send _ _ _ _ _ Hpush) as (-> & Hshape & Hdeliv).
  exists processed,
    (EvPrint (start_line request)
     :: ingest_events request task_id raw processed w),
    (match send_fault env with
     | Some e => [EvPrint ("Notification error: " ++ str e)]
     | None => []
     end ++ cleanup).
  unfold task_field. rewrite Htasks, lookup_insert_eq. cbn [mbind option_bind].
  destruct (completed_fields_lookup processed (task_data request))
    as (Hs & Hc & Hn).
  split_and!; [|
    |
    |exact Hr|exact Hs|exact Hc|exact Hn|].
  - rewrite Hshape. cbn [app]. reflexivity.
  - apply no_send_cons; [done|]. apply ingest_events_no_send.
  - right. unfold ingest_events. do 3 right. by left.
  - intros Hfalse. apply Hdeliv in Hfalse as [e He].
    exists e. split; [done|]. by rewrite He.
Qed.

(** A run of C8: the push fails on the sample upload; the failure is
    logged and the task stays [completed]. *)
Lemma notification_failure_harmless_witness :
  let env :=
    with_send_fault (Some (Exn "Unavailable" "push down")) Sample.env in
  let res := process_file_task env Sample.request Sample.world in
  let m := sync_message Sample.request (next_task_id Sample.world) in
  EvSend m false ∈ new_events Sample.world res.2 ∧
  EvPrint "Notification error: push down" ∈ new_events Sample.world res.2 ∧
  res.1 = Returned tt ∧
  task_field res.2 (next_task_id Sample.world) "status"
  = Some (VStr "completed").
Proof.
  intros env res m.
  assert (EvSend m false ∈ new_events Sample.world res.2) as Hsend.
  { vm_compute. do 5 right. left. }
  split; [exact Hsend|].
  destruct (proj2 (notification_failure_harmless env Sample.request
                     Sample.world) m false Hsend)
    as (processed & before & after & Hevs & _ & _ & Hr & Hstatus & _ & _
        & Hlog).
  destruct (Hlog eq_refl) as (e & He & Hhead).
  injection He as <-.
  split_and!; [|exact Hr|exact Hstatus].
  unfold res. rewrite Hevs. apply elem_of_app. right. right.
  destruct after as [|ev after]; [discriminate Hhead|].
  injection Hhead as ->. left.
Defined.

(** * The deletion job and the store invariant *)

Section deletion_facts.

Implicit Types (w : World) (a : gmap string doc).

(** The deletion job never raises and ends in one of three ways. *)
Lemma delete_file_task_cases env request w :
  let task_id := DeleteRequest.taskId request in
  let res := delete_file_task env request w in
  res.1 = Returned tt ∧ bucket res.2 = bucket w ∧ disk res.2 = disk w ∧
  ((processing_tasks res.2 = processing_tasks w ∧
    app_data res.2 = app_data w)
   ∨
   (is_Some (processing_tasks w !! task_id) ∧
    app_data res.2
    = filter (λ kd, ¬ Firestore.has_source task_id kd.2) (app_data w) ∧
    (processing_tasks res.2 = processing_tasks w ∨
     processing_tasks res.2 = delete task_id (processing_tasks w)))).
Proof.
  intros task_id res. subst res.
  unfold delete_file_task, try_except, bind, Firestore.task_get,
    Firestore.query_source, Firestore.commit, Firestore.task_delete,
    bind, guard, raise, ret, print.
  fold task_id.
  destruct (get_fault env); [by split_and!; [..|left]|].
  cbn [fst snd]. destruct (processing_tasks w !! task_id) as [d|] eqn:Hd;
    [|by split_and!; [..|left]].
  destruct (query_fault env); [by split_and!; [..|left]|].
  cbn [fst snd app_data].
  destruct (batch_fault env); [by split_and!; [..|left]|].
  case_decide; [by split_and!; [..|left]|].
  cbn [fst snd]. rewrite foldl_deletes_query.
  destruct (delete_fault env); cbn [fst snd processing_tasks app_data emit
    with_tasks with_app_data bucket disk];
    (split_and!; [done..|]); right; (split_and!; [by eexists|done|]);
    [by left|by right].
Qed.

(** A deletion of a task that is not there changes no collection. *)
Lemma delete_absent_noop env request w :
  processing_tasks w !! DeleteRequest.taskId request = None →
  let res := delete_file_task env request w in
  processing_tasks res.2 = processing_tasks w ∧
  app_data res.2 = app_data w.
Proof.
  intros Habsent res.
  destruct (delete_file_task_cases env request w)
    as (_ & _ & _ & [Hnoop|([d Hd] & _)]); [done|congruence].
Qed.

(** When no call fails and the batch is within the limit, the records of
    the task and the task are gone. *)
Lemma delete_reliable env request w :
  reliable env →
  size (Firestore.records_of (DeleteRequest.taskId request) (app_data w))
  ≤ Firestore.batch_limit →
  is_Some (processing_tasks w !! DeleteRequest.taskId request) →
  let task_id := DeleteRequest.taskId request in
  let res := delete_file_task env request w in
  processing_tasks res.2 = delete task_id (processing_tasks w) ∧
  app_data res.2
  = filter (λ kd, ¬ Firestore.has_source task_id kd.2) (app_data w).
Proof.
  intros (Hget & Hquery & Hbatch & Hdelete) Hsize [d Hd] task_id res.
  subst res task_id.
  unfold delete_file_task, try_except, bind, Firestore.task_get,
    Firestore.query_source, Firestore.commit, Firestore.task_delete,
    bind, guard, raise, ret, print.
  rewrite Hget. cbn [fst snd].
  rewrite Hd, Hquery. cbn [fst snd app_data]. rewrite Hbatch.
  rewrite decide_False by (rewrite query_length; lia).
  cbn [fst snd]. rewrite foldl_deletes_query, Hdelete. done.
Qed.

Lemma records_of_deleted task_id a :
  Firestore.records_of task_id
    (filter (λ kd, ¬ Firestore.has_source task_id kd.2) a) = ∅.
Proof.
  unfold Firestore.records_of. apply map_empty. intros i.
  apply map_lookup_filter_None. right. intros d Hd Hs.
  apply map_lookup_filter_Some in Hd as [_ Hn]. by apply Hn.
Qed.

Lemma records_of_subseteq task_id (P : string * doc → Prop)
    `{!∀ x, Decision (P x)} a :
  size (Firestore.records_of task_id (filter P a))
  ≤ size (Firestore.records_of task_id a).
Proof.
  apply map_subseteq_size. unfold Firestore.records_of.
  apply map_filter_subseteq_mono, map_filter_subseteq.
Qed.

Lemma has_source_inj task_id task_id' (d : doc) :
  Firestore.has_source task_id d → Firestore.has_source task_id' d →
  task_id = task_id'.
Proof. unfold Firestore.has_source. congruence. Qed.

Lemma collections_inv_task tasks a task_id (d : doc) :
  collections_inv tasks a → collections_inv (<[task_id := d]> tasks) a.
Proof.
  intros [Hsrc Hsize]. split; [|done].
  intros id r Hr. destruct (Hsrc id r Hr) as (t & Ht & Hdom).
  exists t. split; [done|]. rewrite dom_insert_L.
  apply elem_of_union. by right.
Qed.

Lemma collections_inv_publish tasks a request task_id processed w
    (d : doc) :
  app_data w = a → task_id ∉ dom tasks →
  collections_inv tasks a →
  collections_inv (<[task_id := d]> tasks)
    (published request task_id processed w ∪ a).
Proof.
  intros <- Hfresh [Hsrc Hsize].
  pose proof (published_disjoint request task_id processed w) as Hdisj.
  split.
  - intros id r [Hr|[_ Hr]]%lookup_union_Some_raw.
    + exists task_id. split; [by eapply published_source|].
      rewrite dom_insert_L. apply elem_of_union. left.
      by apply elem_of_singleton.
    + destruct (Hsrc id r Hr) as (t & Ht & Hdom).
      exists t. split; [done|]. rewrite dom_insert_L.
      apply elem_of_union. by right.
  - intros t. unfold Firestore.records_of.
    rewrite map_filter_union by done.
    rewrite map_size_disj_union by (by apply map_disjoint_filter).
    destruct (decide (t = task_id)) as [->|Hne].
    + assert (filter (λ kd : string * doc, Firestore.has_source task_id kd.2)
                (app_data w) = ∅) as ->.
      { apply map_empty. intros i. apply map_lookup_filter_None. right.
        intros r Hr Hs. destruct (Hsrc i r Hr) as (t & Ht & Hdom).
        by rewrite (has_source_inj _ _ _ Hs Ht) in Hfresh. }
      rewrite map_size_empty, Nat.add_0_r.
      etransitivity; [apply map_subseteq_size, map_filter_subseteq|].
      rewrite published_size. lia.
    + assert (filter (λ kd : string * doc, Firestore.has_source t kd.2)
                (published request task_id processed w) = ∅) as ->.
      { apply map_empty. intros i. apply map_lookup_filter_None. right.
        intros r Hr%published_source Hs.
        by apply Hne, (has_source_inj _ _ r). }
      rewrite map_size_empty. apply Hsize.
Qed.

Lemma collections_inv_delete tasks tasks' a task_id :
  tasks' = tasks ∨ tasks' = delete task_id tasks →
  collections_inv tasks a →
  collections_inv tasks'
    (filter (λ kd, ¬ Firestore.has_source task_id kd.2) a).
Proof.
  intros Htasks [Hsrc Hsize]. split.
  - intros id r [Hr Hn]%map_lookup_filter_Some.
    destruct (Hsrc id r Hr) as (t & Ht & Hdom). exists t. split; [done|].
    destruct Htasks as [-> | ->]; [done|].
    rewrite dom_delete_L. apply elem_of_difference. split; [done|].
    intros ->%elem_of_singleton. by apply Hn.
  - intros t. etransitivity; [apply records_of_subseteq|apply Hsize].
Qed.

Lemma store_inv_ingest env request w :
  store_inv w → store_inv (process_file_task env request w).2.
Proof.
  unfold store_inv. intros Hinv.
  assert (next_task_id w ∉ dom (processing_tasks w)) as Hfresh.
  { apply not_elem_of_dom, next_task_id_fresh. }
  destruct (process_file_task_cases env request w)
    as (evs & _ & _ & _ & Hcases).
  destruct Hcases as [(_ & processed & -> & -> & _)
                     |[(_ & e & -> & [->|[processed ->]] & _)
                     |[(e & _ & -> & [->|[processed ->]] & _)
                     |(e & _ & -> & -> & _)]]];
    first [by apply collections_inv_publish
          |by apply collections_inv_task
          |done].
Qed.

Lemma store_inv_delete env request w :
  store_inv w → store_inv (delete_file_task env request w).2.
Proof.
  unfold store_inv. intros Hinv.
  destruct (delete_file_task_cases env request w)
    as (_ & _ & _ & [[-> ->]|(_ & -> & Htasks)]); [done|].
  by eapply collections_inv_delete.
Qed.

(** Every world the jobs can produce satisfies the invariant. *)
Lemma reachable_inv w : reachable w → store_inv w.
Proof.
  induction 1 as [w Htasks Happ| | |w w' _ IH Htasks Happ].
  - unfold store_inv. rewrite Htasks, Happ. split.
    + intros id d Hd. by rewrite lookup_empty in Hd.
    + intros t. unfold Firestore.records_of.
      rewrite map_filter_empty, map_size_empty. lia.
  - by apply store_inv_ingest.
  - by apply store_inv_delete.
  - unfold store_inv in *. by rewrite Htasks, Happ.
Qed.

(** Under the invariant, a reliable deletion leaves neither the task nor
    any record of it. *)
Lemma delete_reliable_clean env request w :
  store_inv w → reliable env →
  let task_id := DeleteRequest.taskId request in
  let res := delete_file_task env request w in
  processing_tasks res.2 !! task_id = None ∧
  Firestore.records_of task_id (app_data res.2) = ∅.
Proof.
  intros [Hsrc Hsize] Hrel task_id res.
  destruct (processing_tasks w !! task_id) as [d|] eqn:Hd.
  - destruct (delete_reliable env request w Hrel) as [Htasks Happ].
    + etransitivity; [apply Hsize|].
      unfold publish_cap, Firestore.batch_limit. lia.
    + by eexists.
    + subst res. fold task_id in Htasks, Happ. rewrite Htasks, Happ.
      split; [apply lookup_delete_eq|apply records_of_deleted].
  - destruct (delete_absent_noop env request w Hd) as [Htasks Happ].
    subst res. rewrite Htasks, Happ. split; [done|].
    apply map_empty. intros i. apply map_lookup_filter_None. right.
    intros r Hr Hs. destruct (Hsrc i r Hr) as (t & Ht & Hdom).
    rewrite (has_source_inj _ _ _ Hs Ht) in Hd.
    by apply not_elem_of_dom in Hd.
Qed.

End deletion_facts.

(** C3. From any world the two jobs can produce, deleting the same task
    twice never raises; if the remote calls of at least one of the two
    deletions all succeed, then afterwards no record carries the task's id
    and the task is gone; if those of the first succeed, the second changes
    neither collection. A deletion of an absent task changes neither
    collection. *)
Theorem reconciliation_idempotent env1 env2 request w :
  reachable w →
  reliable env1 ∨ reliable env2 →
  let task_id := DeleteRequest.taskId request in
  let res1 := delete_file_task env1 request w in
  let res2 := delete_file_task env2 request res1.2 in
  res1.1 = Returned tt ∧ res2.1 = Returned tt ∧
  Firestore.records_of task_id (app_data res2.2) = ∅ ∧
  processing_tasks res2.2 !! task_id = None ∧
  (reliable env1 →
   processing_tasks res2.2 = processing_tasks res1.2 ∧
   app_data res2.2 = app_data res1.2) ∧
  (processing_tasks w !! task_id = None →
   processing_tasks res1.2 = processing_tasks w ∧
   app_data res1.2 = app_data w).
Proof.
  intros Hreach Hrel task_id res1 res2.
  pose proof (reachable_inv w Hreach) as Hinv.
  pose proof (store_inv_delete env1 request w Hinv) as Hinv1.
  fold res1 in Hinv1.
  destruct (delete_file_task_cases env1 request w) as (Hr1 & _).
  destruct (delete_file_task_cases env2 request res1.2) as (Hr2 & _).
  fold res1 in Hr1. fold res2 in Hr2.
  assert (reliable env1 →
          processing_tasks res1.2 !! task_id = None ∧
          Firestore.records_of task_id (app_data res1.2) = ∅ ∧
          processing_tasks res2.2 = processing_tasks res1.2 ∧
          app_data res2.2 = app_data res1.2) as Hfirst.
  { intros Hrel1.
    destruct (delete_reliable_clean env1 request w Hinv Hrel1)
      as [Hgone Hnone].
    fold task_id res1 in Hgone, Hnone.
    destruct (delete_absent_noop env2 request res1.2 Hgone) as [Ht Ha].
    by fold res2 in Ht, Ha. }
  split_and!; [exact Hr1|exact Hr2| | | |].
  - destruct Hrel as [Hrel1|Hrel2].
    + destruct (Hfirst Hrel1) as (_ & Hnone & _ & ->). exact Hnone.
    + apply (delete_reliable_clean env2 request res1.2 Hinv1 Hrel2).
  - destruct Hrel as [Hrel1|Hrel2].
    + destruct (Hfirst Hrel1) as (Hgone & _ & -> & _). exact Hgone.
    + apply (delete_reliable_clean env2 request res1.2 Hinv1 Hrel2).
  - intros Hrel1. by destruct (Hfirst Hrel1) as (_ & _ & ? & ?).
  - intros Habsent. apply (delete_absent_noop env1 request w Habsent).
Qed.

(** A run of C3: the sample upload is ingested, then deleted twice. The
    two published records and the task are gone. *)
Lemma reconciliation_idempotent_witness :
  let w := (process_file_task Sample.env Sample.request Sample.world).2 in
  let request :=
    {| DeleteRequest.taskId := next_task_id Sample.world;
       DeleteRequest.userId := "u1" |} in
  let res1 := delete_file_task Sample.delete_env request w in
  let res2 := delete_file_task Sample.delete_env request res1.2 in
  reachable w ∧ reliable Sample.delete_env ∧
  size (Firestore.records_of (next_task_id Sample.world) (app_data w)) = 2 ∧
  res2.1 = Returned tt ∧
  Firestore.records_of (next_task_id Sample.world) (app_data res2.2) = ∅ ∧
  processing_tasks res2.2 !! next_task_id Sample.world = None.
Proof.
  intros w request res1 res2.
  assert (reachable w) as Hreach.
  { apply reach_ingest, reach_init; reflexivity. }
  assert (reliable Sample.delete_env) as Hrel.
  { split_and!; reflexivity. }
  split_and!; [exact Hreach|exact Hrel|vm_compute; reflexivity|..];
    destruct (reconciliation_idempotent Sample.delete_env Sample.delete_env
                request w Hreach (or_introl Hrel))
      as (_ & Hr2 & Hnone & Hgone & _); assumption.
Defined.

(** Without the hypotheses of C3 the records can stay: when the batch of
    both deletions fails, the two records of the sample upload remain. *)
Lemma deletion_fails_twice :
  let w := (process_file_task Sample.env Sample.request Sample.world).2 in
  let request :=
    {| DeleteRequest.taskId := next_task_id Sample.world;
       DeleteRequest.userId := "u1" |} in
  let res1 := delete_file_task Sample.delete_env_down request w in
  let res2 := delete_file_task Sample.delete_env_down request res1.2 in
  res2.1 = Returned tt ∧
  size (Firestore.records_of (next_task_id Sample.world) (app_data res2.2))
  = 2.
Proof. vm_compute. done. Qed.

(** C6, as the code has it. The scratch path of a job is "/tmp/" followed
    by the file name of the request: two jobs have the same scratch path
    exactly when their requests have the same file name. *)
Theorem scratch_path_by_file_name (request1 request2 : ProcessRequest) :
  temp_path request1 = ("/tmp/" ++ fileName request1)%string ∧
  (temp_path request1 = temp_path request2
   ↔ fileName request1 = fileName request2).
Proof.
  split; [reflexivity|]. unfold temp_path. split.
  - simpl. by intros [=].
  - by intros ->.
Qed.

(** C6 as stated fails: two different requests for a file named [a.csv],
    run one after the other, get different task ids and the same scratch
    path. *)
Lemma same_name_same_scratch_path :
  Sample.request ≠ Sample.request' ∧
  next_task_id Sample.world
  ≠ next_task_id
      (process_file_task Sample.env Sample.request Sample.world).2 ∧
  temp_path Sample.request = temp_path Sample.request'.
Proof.
  split_and!; [discriminate| |reflexivity].
  vm_compute. discriminate.
Qed.

(** C10. The health probe returns [{"status": "ready"}] in every world and
    changes nothing. *)
Theorem health_check_ready w :
  health_check w = (Returned {[ "status" := VStr "ready" ]}, w).
Proof. reflexivity. Qed.
(** * Further properties of the converter *)

(** X1. Whatever the category, when [process] returns it returns exactly one
    record per input row, provided some row has a key; from rows without any
    key (a frame without columns) it returns no record at all. *)
Theorem process_one_record_per_row raw category w out :
  (process raw category w).1 = Returned out →
  (has_column raw → length out = length raw) ∧
  (¬ has_column raw → out = []).
Proof.
  rewrite process_result. intros Hconv. split.
  - intros Hcol. by eapply convert_length.
  - intros Hcol. by eapply convert_no_column.
Qed.

Lemma process_one_record_per_row_witness :
  has_column Sample.rows ∧
  ∃ out, (process Sample.rows "other" empty_world).1 = Returned out ∧
         length out = 2.
Proof.
  assert (has_column Sample.rows) as Hcol.
  { exists "Amount". apply union_keys_elem. vm_compute. left. }
  split; [exact Hcol|].
  eexists. split; [vm_compute; reflexivity|].
  apply (process_one_record_per_row Sample.rows "other" empty_world);
    [|exact Hcol].
  vm_compute. reflexivity.
Defined.

Section converter_errors.
Import Pandas SpreadsheetLogic.

Implicit Types (raw : list row) (ls cols : list string) (vs : list value)
  (c k : string) (df : DataFrame).








End converter_errors.



Section converter_cells.
Import Pandas SpreadsheetLogic.

Implicit Types (raw : list row) (ls cols : list string) (vs : list value)
  (c k : string) (df : DataFrame).

(** Every value of a record built by [to_dict] is a cell of its row. *)
Lemma record_of_values (P : value → Prop) ls vs c v :
  Forall P vs → record_of ls vs !! c = Some v → P v.
Proof.
  unfold record_of.
  assert (∀ d : doc, (∀ c v, d !! c = Some v → P v) → Forall P vs →
    foldl (λ d (kv : string * value), <[kv.1 := kv.2]> d) d (zip ls vs) !! c
    = Some v → P v) as Hgen.
  { clear. revert vs. induction ls as [|l ls IH]; intros [|x vs] d Hd Hvs;
      simpl; try by apply Hd.
    apply Forall_cons in Hvs as [Hx Hvs]. apply IH; [|done].
    intros c' v' [[_ <-]|[_ ?]]%lookup_insert_Some; [done|by eapply Hd]. }
  apply Hgen. intros c' v'. by rewrite lookup_empty.
Qed.

Lemma Forall_zip_with_both {A B C} (P : A → Prop) (Q : B → Prop)
    (R : C → Prop) (f : A → B → C) (l : list A) (k : list B) :
  (∀ x y, P x → Q y → R (f x y)) →
  Forall P l → Forall Q k → Forall R (zip_with f l k).
Proof.
  intros Hf Hl. revert k. induction Hl as [|x l Hx Hl IH]; intros k Hk;
    [constructor|].
  destruct Hk as [|y k Hy Hk]; simpl; [constructor|].
  constructor; [by apply Hf|by apply IH].
Qed.

Lemma fillna_filled df :
  Forall (Forall filled) (cells (fillna (VStr "") df)).
Proof.
  unfold fillna. simpl. apply Forall_fmap, Forall_forall. intros vs _. simpl.
  apply Forall_fmap, Forall_forall. intros v _. by destruct v.
Qed.

Lemma assign_filled c (s : list value) df :
  Forall filled s → Forall (Forall filled) (cells df) →
  Forall (Forall filled) (cells (assign c s df)).
Proof.
  intros Hs Hdf. unfold assign, set_at.
  destruct (positions c (labels df)) as [|p ps]; simpl.
  - apply (Forall_zip_with_both (Forall filled) filled); [|done|done].
    intros vs v Hvs Hv. apply Forall_app. split; [done|by constructor].
  - apply (Forall_zip_with_both (Forall filled) filled); [|done|done].
    intros vs v Hvs Hv. apply list.Forall_insert; [|done].
    induction ps as [|q qs IH]; simpl; [done|].
    by apply list.Forall_insert.
Qed.

Lemma apply_business_rules_filled df category df' :
  apply_business_rules df category = Returned df' →
  Forall (Forall filled) (cells df').
Proof.
  unfold apply_business_rules, numeric_column.
  pose proof (fillna_filled df) as Hplain.
  repeat case_decide; try (intros [= <-]; exact Hplain).
  - destruct (positions "amount" (labels (fillna (VStr "") df)))
      as [|i [|? ?]]; try done.
    intros [= <-]. apply assign_filled; [|done].
    apply Forall_fmap, Forall_forall. intros v _. by destruct v.
  - destruct (positions "stock" (labels (fillna (VStr "") df)))
      as [|i [|? ?]]; try done.
    intros [= <-]. apply assign_filled; [|done].
    apply Forall_fmap, Forall_forall. by intros v _.
Qed.

Lemma convert_filled raw category out d c v :
  convert raw category = Returned out → d ∈ out → d !! c = Some v →
  v ≠ VNull.
Proof.
  destruct raw as [|r raw]; [done|].
  rewrite convert_nonempty by done.
  destruct (apply_business_rules _ category) as [df'|e] eqn:Hrules; [|done].
  intros [= <-] Hd Hv. apply apply_business_rules_filled in Hrules.
  apply to_dict_records_elem in Hd as (_ & vs & -> & Hvs).
  rewrite Forall_forall in Hrules.
  by eapply (record_of_values filled), Hv; apply Hrules.
Qed.

End converter_cells.

(** X3. No record returned by [process] holds a missing value (NaN or
    None), whatever the rows and the category: missing cells have become the
    empty string, or 0 in the [amount] of a financial table. *)
Theorem process_leaves_no_missing_value raw category w out d c v :
  (process raw category w).1 = Returned out →
  d ∈ out → d !! c = Some v → v ≠ VNull.
Proof. rewrite process_result. apply convert_filled. Qed.

Lemma process_leaves_no_missing_value_witness :
  let raw := [[("a", VNull); ("amount", VNull)]; [("b", VStr "x")]] in
  (process raw "financial" empty_world).1
  = Returned
      [ {[ "a" := VStr ""; "amount" := VNum (Fin 0); "b" := VStr "" ]};
        {[ "a" := VStr ""; "amount" := VNum (Fin 0); "b" := VStr "x" ]} ] ∧
  ∀ d c v,
    d ∈ [ ({[ "a" := VStr ""; "amount" := VNum (Fin 0); "b" := VStr "" ]}
             : doc);
          {[ "a" := VStr ""; "amount" := VNum (Fin 0); "b" := VStr "x" ]} ] →
    d !! c = Some v → v ≠ VNull.
Proof.
  intros raw.
  assert ((process raw "financial" empty_world).1
          = Returned
              [ {[ "a" := VStr ""; "amount" := VNum (Fin 0);
                   "b" := VStr "" ]};
                {[ "a" := VStr ""; "amount" := VNum (Fin 0);
                   "b" := VStr "x" ]} ]) as Hrun
    by (vm_compute; reflexivity).
  split; [exact Hrun|].
  intros d c v.
  exact (process_leaves_no_missing_value raw "financial" empty_world _ d c v
           Hrun).
Defined.

Section converter_frame.
Import Pandas SpreadsheetLogic.

Implicit Types (raw : list row) (ls cols : list string) (vs : list value)
  (c k : string) (df : DataFrame).





End converter_frame.



Section header_cleaning.
Import SpreadsheetLogic.

Implicit Types (s t : string) (a : ascii) (f : ascii → ascii)
  (sp : ascii → bool).

Lemma chars_inj s t : chars s = chars t → s = t.
Proof.
  revert t. induction s as [|a s IH]; intros [|b t]; simpl; try done.
  intros [= -> Hst]. f_equal. by apply IH.
Qed.

Lemma chars_map f s : chars (Str.map f s) = f <$> chars s.
Proof. induction s as [|a s IH]; simpl; [done|]. by rewrite IH. Qed.

Lemma chars_rev s : chars (String.rev s) = reverse (chars s).
Proof.
  unfold String.rev.
  assert (∀ t, chars (String.rev_app s t) = reverse (chars s) ++ chars t)
    as Hgen.
  { induction s as [|a s IH]; intros t; simpl; [done|].
    rewrite IH, reverse_cons, <-(assoc_L (++)). done. }
  rewrite Hgen. simpl. apply app_nil_r.
Qed.

Lemma rev_involutive s : String.rev (String.rev s) = s.
Proof. apply chars_inj. by rewrite !chars_rev, reverse_involutive. Qed.

Lemma rev_map f s : String.rev (Str.map f s) = Str.map f (String.rev s).
Proof.
  apply chars_inj. by rewrite chars_rev, !chars_map, chars_rev, fmap_reverse.
Qed.

(** [lstrip] removes a prefix and stops at a character that is kept. *)
Lemma lstrip_split sp s :
  ∃ p, chars s = p ++ chars (Str.lstrip sp s) ∧
       ∀ a, head (chars (Str.lstrip sp s)) = Some a → sp a = false.
Proof.
  induction s as [|a s (p & Hp & Hhead)]; simpl.
  - by exists [].
  - destruct (sp a) eqn:Ha.
    + exists (a :: p). split; [by rewrite Hp|done].
    + exists []. split; [done|]. simpl. by intros ? [= <-].
Qed.

Lemma lstrip_id sp s :
  (∀ a, head (chars s) = Some a → sp a = false) → Str.lstrip sp s = s.
Proof.
  destruct s as [|a s]; simpl; [done|]. intros Ha. by rewrite Ha.
Qed.

Lemma strip_trimmed s : trimmed (Str.strip s).
Proof.
  unfold Str.strip, Str.rstrip.
  destruct (lstrip_split Str.py_space s) as (_ & _ & Hhead).
  set (t := Str.lstrip Str.py_space s) in *.
  destruct (lstrip_split Str.py_space (String.rev t)) as (p & Hp & Hlast).
  set (u := chars (Str.lstrip Str.py_space (String.rev t))) in *.
  unfold trimmed. rewrite chars_rev. fold u.
  rewrite head_reverse, last_reverse. split; [|done].
  intros a Ha. apply Hhead.
  rewrite chars_rev in Hp.
  assert (chars t = reverse u ++ reverse p) as ->.
  { by rewrite <-reverse_app, <-Hp, reverse_involutive. }
  rewrite <-head_reverse in Ha.
  destruct (reverse u) as [|b l]; [done|]. done.
Qed.

Lemma strip_id s : trimmed s → Str.strip s = s.
Proof.
  intros [Hhead Hlast]. unfold Str.strip, Str.rstrip.
  rewrite (lstrip_id _ s) by done.
  rewrite lstrip_id; [apply rev_involutive|].
  intros a. rewrite chars_rev, head_reverse. apply Hlast.
Qed.

Lemma map_trimmed f s :
  (∀ a, Str.py_space a = false → Str.py_space (f a) = false) →
  trimmed s → trimmed (Str.map f s).
Proof.
  intros Hf [Hhead Hlast]. unfold trimmed. rewrite chars_map. split.
  - intros b. destruct (chars s) as [|a l]; simpl; [done|].
    intros [= <-]. by apply Hf, Hhead.
  - intros b. rewrite fmap_last.
    destruct (last (chars s)) as [a|]; simpl; [|done].
    intros [= <-]. by apply Hf, Hlast.
Qed.

Lemma lower_keeps_non_space a :
  Str.py_space a = false → Str.py_space (Str.lower_ascii a) = false.
Proof. by destruct a as [[] [] [] [] [] [] [] []]. Qed.

Lemma replace_keeps_non_space a :
  Str.py_space a = false →
  Str.py_space (if decide (a = " "%char) then "_"%char else a) = false.
Proof. by destruct a as [[] [] [] [] [] [] [] []]. Qed.

Lemma clean_char_idempotent a :
  let f a := if decide (Str.lower_ascii a = " "%char) then "_"%char
             else Str.lower_ascii a in
  f (f a) = f a ∧ f a ≠ " "%char ∧ Str.is_upper (f a) = false.
Proof. by destruct a as [[] [] [] [] [] [] [] []]. Qed.

Lemma clean_header_chars h :
  chars (clean_header h) =
  (λ a, if decide (Str.lower_ascii a = " "%char) then "_"%char
        else Str.lower_ascii a) <$> chars (Str.strip h).
Proof.
  unfold clean_header, Str.replace_space, Str.lower.
  rewrite !chars_map, <-list_fmap_compose. done.
Qed.

Lemma clean_header_trimmed h : trimmed (clean_header h).
Proof.
  unfold clean_header, Str.replace_space, Str.lower.
  apply map_trimmed; [apply replace_keeps_non_space|].
  apply map_trimmed; [apply lower_keeps_non_space|].
  apply strip_trimmed.
Qed.

(** X5. Header cleaning yields a normal form, for headers in the ASCII
    range that [Str] models: cleaning a cleaned header changes nothing, and
    a cleaned header has no white space at either end, no blank and no
    upper-case letter A-Z anywhere. *)
Theorem clean_header_normal_form h :
  clean_header (clean_header h) = clean_header h ∧
  trimmed (clean_header h) ∧
  ∀ a, a ∈ chars (clean_header h) → a ≠ " "%char ∧ Str.is_upper a = false.
Proof.
  split; [|split; [apply clean_header_trimmed|]].
  - apply chars_inj.
    rewrite (clean_header_chars (clean_header h)).
    rewrite (strip_id _ (clean_header_trimmed h)).
    rewrite clean_header_chars, <-list_fmap_compose.
    apply list_fmap_ext. intros _ a _. simpl.
    apply (clean_char_idempotent a).
  - intros a. rewrite clean_header_chars.
    intros (b & -> & _)%list_elem_of_fmap.
    apply (clean_char_idempotent b).
Qed.

End header_cleaning.



Section publication_facts.

Implicit Types (w : World) (env : Env) (request : ProcessRequest).

Lemma published_record_fields request task_id item :
  let d := published_record request task_id item in
  d !! "sourceFileId" = Some (VStr task_id) ∧
  d !! "category" = Some (VStr (category request)) ∧
  d !! "customName" = Some (opt_str (customName request)) ∧
  d !! "updatedAt" = Some VServerTimestamp.
Proof.
  intros d. subst d. unfold published_record.
  split_and!.
  - by rewrite !lookup_insert_ne, lookup_insert_eq by done.
  - by rewrite !lookup_insert_ne, lookup_insert_eq by done.
  - by rewrite lookup_insert_ne, lookup_insert_eq by done.
  - by rewrite lookup_insert_eq.
Qed.

Lemma published_lookup request task_id processed w id d :
  published request task_id processed w !! id = Some d →
  ∃ item, item ∈ take publish_cap processed ∧
          d = published_record request task_id item.
Proof.
  unfold published. intros Hd.
  apply elem_of_list_to_map_2, elem_of_zip_r in Hd.
  apply list_elem_of_fmap in Hd as (item & -> & Hitem). by exists item.
Qed.

(** What an ingestion leaves in ['app_data']: what was there, with or
    without the batch of the job. *)
Lemma process_file_task_app_data env request w :
  let res := process_file_task env request w in
  app_data res.2 = app_data w ∨
  ∃ processed,
    app_data res.2
    = published request (next_task_id w) processed w ∪ app_data w.
Proof.
  intros res.
  destruct (process_file_task_cases env request w)
    as (evs & _ & _ & _ & Hcases).
  fold res in Hcases.
  destruct Hcases
    as [(_ & processed & _ & Happ & _)
       |[(_ & e & _ & Happ & _)
        |[(e & _ & _ & Happ & _)|(e & _ & _ & Happ & _)]]];
    [right; by exists processed|exact Happ|exact Happ|by left].
Qed.

End publication_facts.

(** X7. Whatever the outcome of an ingestion, every record that was stored
    before is still stored unchanged, at most 400 records are new, and each
    new record names the task of this job as its source and carries the
    category and the custom name of the request and a server time stamp,
    whatever the sheet had in columns of these names. *)
Theorem ingestion_only_adds_own_records env request w :
  let task_id := next_task_id w in
  let res := process_file_task env request w in
  (∀ id d, app_data w !! id = Some d → app_data res.2 !! id = Some d) ∧
  (∀ id d, app_data w !! id = None → app_data res.2 !! id = Some d →
     d !! "sourceFileId" = Some (VStr task_id) ∧
     d !! "category" = Some (VStr (category request)) ∧
     d !! "customName" = Some (opt_str (customName request)) ∧
     d !! "updatedAt" = Some VServerTimestamp) ∧
  size (app_data res.2) ≤ size (app_data w) + publish_cap.
Proof.
  intros task_id res.
  destruct (process_file_task_app_data env request w)
    as [Happ|(processed & Happ)]; fold res task_id in Happ; rewrite Happ.
  { split_and!; [done|congruence|lia]. }
  pose proof (published_disjoint request task_id processed w) as Hdisj.
  split_and!.
  - intros id d Hd. by apply lookup_union_Some_r.
  - intros id d Hnone Hd.
    apply lookup_union_Some in Hd as [Hd|Hd]; [|congruence|done].
    apply published_lookup in Hd as (item & _ & ->).
    apply published_record_fields.
  - rewrite map_size_disj_union, published_size by done. lia.
Qed.

Section conversion_failures.

Implicit Types (w : World) (env : Env) (request : ProcessRequest).



End conversion_failures.



Section complete_uploads.

Import Pandas SpreadsheetLogic.

Implicit Types (w : World) (env : Env) (request : ProcessRequest)
  (raw : list row).




End complete_uploads.





Section pushes.

Implicit Types (w : World) (env : Env) (request : ProcessRequest)
  (evs : list event).

Lemma sends_app evs1 evs2 : sends (evs1 ++ evs2) = sends evs1 ++ sends evs2.
Proof. apply omap_app. Qed.

Lemma sends_cons ev evs : sends (ev :: evs) = sends [ev] ++ sends evs.
Proof. apply (sends_app [ev] evs). Qed.

Lemma no_send_sends evs : no_send evs → sends evs = [].
Proof.
  induction evs as [|ev evs IH]; [done|]. intros Hno.
  assert (no_send evs) as Hevs.
  { intros m b Hin. apply (Hno m b). by right. }
  rewrite sends_cons, (IH Hevs), app_nil_r.
  destruct ev as [| | | | |m b|]; try reflexivity.
  destruct (Hno m b). by left.
Qed.

Lemma sends_push_events env request task_id :
  sends (push_events env request task_id)
  = [(sync_message request task_id, push_delivered env)].
Proof.
  unfold push_events, push_delivered. by destruct (send_fault env).
Qed.

End pushes.

(** X11. An ingestion attempts a push exactly when it leaves its task
    completed, and then exactly one: the message of the request, with the id
    of the task as [sourceId]. A job that ends in any other way attempts
    none. *)
Theorem completion_pushes_once env request w :
  let task_id := next_task_id w in
  let res := process_file_task env request w in
  (task_field res.2 task_id "status" = Some (VStr "completed") ∧
   sends (new_events w res.2)
   = [(sync_message request task_id, push_delivered env)] ∧
   data (sync_message request task_id) !! "sourceId" = Some task_id)
  ∨
  (task_field res.2 task_id "status" ≠ Some (VStr "completed") ∧
   sends (new_events w res.2) = []).
Proof.
  intros task_id res.
  destruct (process_file_task_cases env request w)
    as (evs & Htrace & _ & _ & Hcases).
  fold res task_id in Htrace, Hcases.
  rewrite (new_events_app _ _ _ Htrace). unfold task_field.
  destruct Hcases
    as [(_ & processed & Htasks & _ & _ & raw & cleanup & -> & Hno)
       |[(_ & e & Htasks & _ & _ & Hno)
        |[(e & _ & Htasks & _ & _ & Hno)|(e & _ & Htasks & _ & _ & Hno)]]];
    rewrite Htasks.
  - left. rewrite lookup_insert_eq. cbn [mbind option_bind].
    split_and!.
    + apply completed_fields_lookup.
    + rewrite sends_cons, !sends_app, sends_push_events, (no_send_sends _ Hno).
      reflexivity.
    + reflexivity.
  - right. rewrite lookup_insert_eq. cbn [mbind option_bind].
    split; [|by apply no_send_sends].
    destruct (error_fields_lookup e (task_data request)) as [-> _]. done.
  - right. rewrite lookup_insert_eq. cbn [mbind option_bind].
    split; [|by apply no_send_sends].
    by rewrite task_data_status.
  - right. split; [|by apply no_send_sends].
    fold (next_task_id w). unfold task_id. by rewrite next_task_id_fresh.
Qed.

Section both_jobs.

Implicit Types (w : World) (request : ProcessRequest).

(** A record stored before an ingestion does not name the task the
    ingestion is about to create. *)
Lemma fresh_task_no_records w :
  store_inv w →
  filter (λ kd, ¬ Firestore.has_source (next_task_id w) kd.2) (app_data w)
  = app_data w.
Proof.
  intros [Hsrc _]. apply map_filter_id. intros id d Hd Hs. cbn [snd] in Hs.
  destruct (Hsrc id d Hd) as (t & Ht & Hdom).
  rewrite <-(has_source_inj _ _ _ Hs Ht) in Hdom.
  apply (elem_of_dom (D := gset string)) in Hdom as [d' Hd'].
  by rewrite next_task_id_fresh in Hd'.
Qed.

Lemma published_removed request task_id processed w :
  filter (λ kd, ¬ Firestore.has_source task_id kd.2)
    (published request task_id processed w) = ∅.
Proof.
  apply map_empty. intros id. apply map_lookup_filter_None. right.
  intros d Hd Hs. apply Hs. cbn [snd]. by eapply published_source.
Qed.

(** An ingestion followed by the deletion of its task, when the deletion
    meets no fault. *)
Lemma ingest_then_delete env denv request drequest w :
  store_inv w → reliable denv →
  DeleteRequest.taskId drequest = next_task_id w →
  let w1 := (process_file_task env request w).2 in
  let res := delete_file_task denv drequest w1 in
  processing_tasks res.2 = processing_tasks w ∧ app_data res.2 = app_data w.
Proof.
  intros Hinv Hrel Hid w1 res.
  pose proof (store_inv_ingest env request w Hinv) as Hinv1. fold w1 in Hinv1.
  pose proof (next_task_id_fresh w) as Hfresh.
  destruct (process_file_task_cases env request w)
    as (evs & _ & _ & _ & Hcases).
  pose proof (process_file_task_app_data env request w) as Happ.
  cbv zeta in Hcases, Happ. fold w1 in Hcases, Happ.
  assert ((∃ d, processing_tasks w1
                = <[next_task_id w := d]> (processing_tasks w))
          ∨ (processing_tasks w1 = processing_tasks w ∧
             app_data w1 = app_data w)) as [[d Htasks]|[Htasks Happ']].
  { destruct Hcases
      as [(_ & processed & Htasks & _)
         |[(_ & e & Htasks & _)
          |[(e & _ & Htasks & _)|(e & _ & Htasks & Ha & _)]]];
      [left; by eexists..|by right]. }
  - destruct (delete_reliable denv drequest w1 Hrel) as [Ht Ha].
    + destruct Hinv1 as [_ Hsize]. etransitivity; [apply Hsize|].
      unfold publish_cap, Firestore.batch_limit. lia.
    + rewrite Hid, Htasks, lookup_insert_eq. by eexists.
    + fold res in Ht, Ha. rewrite Ht, Ha, Hid, Htasks. split.
      * rewrite delete_insert_eq. by apply delete_id.
      * destruct Happ as [->|[processed ->]].
        -- by apply fresh_task_no_records.
        -- rewrite map_filter_union by apply published_disjoint.
           rewrite published_removed, (left_id_L ∅ (∪)).
           by apply fresh_task_no_records.
  - destruct (delete_absent_noop denv drequest w1) as [Ht Ha].
    + by rewrite Hid, Htasks.
    + fold res in Ht, Ha. by rewrite Ht, Ha.
Qed.

Lemma run_background_one (job : Py unit) w :
  (run_background [job] w).2 = (job w).2.
Proof.
  unfold run_background, foldr, bind. by destruct (job w) as [[[]|e] w'].
Qed.

End both_jobs.

(** X12. In every state the two jobs can produce from empty collections,
    whatever failed on the way, each stored record names a task that
    exists, and the records of that task are 400 at most, so that the batch
    of a deletion stays under the limit of 500 writes. *)
Theorem no_orphan_records w id d :
  reachable w →
  app_data w !! id = Some d →
  ∃ task_id,
    d !! "sourceFileId" = Some (VStr task_id) ∧
    is_Some (processing_tasks w !! task_id) ∧
    size (Firestore.records_of task_id (app_data w)) ≤ publish_cap ∧
    size (Firestore.records_of task_id (app_data w)) < Firestore.batch_limit.
Proof.
  intros [Hsrc Hsize]%reachable_inv Hd.
  destruct (Hsrc id d Hd) as (task_id & Hs & Hdom).
  exists task_id. split_and!; [exact Hs| |apply Hsize|].
  - by apply (elem_of_dom (D := gset string)).
  - eapply Nat.le_lt_trans; [apply Hsize|].
    unfold publish_cap, Firestore.batch_limit. lia.
Qed.

(** X13. A deletion never raises and never touches the bucket or the local
    files. It leaves every other task and every record of another task as
    they were and adds no record. Its effect on the records of its task is
    all or nothing, and the task's entry goes only once they are gone. *)
Theorem deletion_touches_own_task_only env request w :
  let task_id := DeleteRequest.taskId request in
  let res := delete_file_task env request w in
  res.1 = Returned tt ∧ bucket res.2 = bucket w ∧ disk res.2 = disk w ∧
  (∀ id, id ≠ task_id →
     processing_tasks res.2 !! id = processing_tasks w !! id) ∧
  (∀ id d, app_data w !! id = Some d → ¬ Firestore.has_source task_id d →
     app_data res.2 !! id = Some d) ∧
  app_data res.2 ⊆ app_data w ∧
  (app_data res.2 = app_data w ∨
   Firestore.records_of task_id (app_data res.2) = ∅) ∧
  (processing_tasks res.2 ≠ processing_tasks w →
   Firestore.records_of task_id (app_data res.2) = ∅).
Proof.
  intros task_id res.
  destruct (delete_file_task_cases env request w)
    as (Hr & Hbucket & Hdisk & Hcases).
  fold task_id res in Hr, Hbucket, Hdisk, Hcases.
  split_and!; [exact Hr|exact Hbucket|exact Hdisk|..];
    destruct Hcases as [[Htasks Happ]|(Hsome & Happ & Htasks)];
    rewrite ?Happ.
  - intros id _. by rewrite Htasks.
  - intros id Hid. destruct Htasks as [-> | ->]; [done|].
    by apply lookup_delete_ne.
  - done.
  - intros id d Hd Hs. by apply map_lookup_filter_Some.
  - done.
  - apply map_filter_subseteq.
  - by left.
  - right. apply records_of_deleted.
  - intros Hne. by destruct Hne.
  - intros _. apply records_of_deleted.
Qed.

(** X14. Posting an upload to [/convert] and then the id of its task to
    [/delete-cloud] undoes the upload. Both requests are acknowledged at
    once (202 with the file name, 200), whatever the jobs then do; and when
    the deletion meets no fault, both collections are afterwards what they
    were before the upload, however the ingestion ended. *)
Theorem convert_then_delete_restores env denv request drequest w :
  reachable w → reliable denv →
  DeleteRequest.taskId drequest = next_task_id w →
  let accepted := serve (trigger_conversion env request) w in
  let deleted := serve (delete_cloud_data denv drequest) accepted.2 in
  status_code accepted.1 = 202 ∧
  payload accepted.1 !! "file" = Some (fileName request) ∧
  status_code deleted.1 = 200 ∧
  processing_tasks deleted.2 = processing_tasks w ∧
  app_data deleted.2 = app_data w.
Proof.
  intros Hinv%reachable_inv Hrel Hid accepted deleted.
  split_and!; [reflexivity..| |];
    subst deleted accepted; unfold serve, trigger_conversion,
      delete_cloud_data; cbn [fst snd]; rewrite !run_background_one;
    by apply ingest_then_delete.
Qed.

(** A run of X12: the store after the sample upload. *)
Lemma no_orphan_records_witness :
  let w := (process_file_task Sample.env Sample.request Sample.world).2 in
  reachable w ∧
  ∀ id d, app_data w !! id = Some d →
    ∃ task_id, d !! "sourceFileId" = Some (VStr task_id) ∧
               is_Some (processing_tasks w !! task_id).
Proof.
  intros w.
  assert (reachable w) as Hw.
  { apply reach_ingest. by apply reach_init. }
  split; [exact Hw|]. intros id d Hd.
  destruct (no_orphan_records w id d Hw Hd) as (task_id & Hs & Ht & _).
  exists task_id. split; [exact Hs|exact Ht].
Defined.

(** A run of X14: the sample upload, then its deletion. *)
Lemma convert_then_delete_restores_witness :
  let accepted :=
    serve (trigger_conversion Sample.env Sample.request) Sample.world in
  let deleted :=
    serve (delete_cloud_data Sample.delete_env Uploads.delete_request)
      accepted.2 in
  reachable Sample.world ∧ reliable Sample.delete_env ∧
  status_code accepted.1 = 202 ∧ status_code deleted.1 = 200 ∧
  processing_tasks deleted.2 = ∅ ∧ app_data deleted.2 = ∅.
Proof.
  intros accepted deleted.
  assert (reachable Sample.world) as Hw by (by apply reach_init).
  assert (reliable Sample.delete_env) as Hrel by (by split_and!).
  destruct (convert_then_delete_restores Sample.env Sample.delete_env
              Sample.request Uploads.delete_request Sample.world
              Hw Hrel eq_refl) as (Ha & _ & Hd & Htasks & Happ).
  split_and!; [exact Hw|exact Hrel|exact Ha|exact Hd|exact Htasks|exact Happ].
Defined.

Section record_fields.
Import Pandas SpreadsheetLogic.

Implicit Types (raw : list row) (ls : list string) (vs : list value)
  (c k : string) (df : DataFrame).







End record_fields.



Section task_documents.

Implicit Types (w : World) (env : Env) (request : ProcessRequest) (d : doc).

(** The document of step A. *)
Lemma task_data_fields request :
  let d := task_data request in
  d !! "fileName" = Some (VStr (fileName request)) ∧
  d !! "uploadedBy" = Some (VStr (userId request)) ∧
  d !! "category" = Some (VStr (category request)) ∧
  d !! "type" = Some (VStr (fileType request)) ∧
  d !! "createdAt" = Some VServerTimestamp ∧
  d !! "notificationSent" = Some (VBool false) ∧
  d !! "errorMessage" = None ∧ d !! "recordCount" = None.
Proof.
  intros d. subst d. unfold task_data. case_decide; [|by split_and!].
  destruct (expiryDate request) as [day|]; [case_decide|];
    split_and!; by rewrite ?lookup_insert_ne by done.
Qed.

Lemma task_data_side request :
  let d := task_data request in
  (is_Some (d !! "customName") ↔ fileType request = "side") ∧
  (is_Some (d !! "expiryDate")
   ↔ fileType request = "side" ∧
     ∃ day, expiryDate request = Some day ∧ day ≠ "").
Proof.
  intros d. subst d. unfold task_data. case_decide as Hside.
  - destruct (expiryDate request) as [day|]; [case_decide as Hday|].
    + rewrite lookup_insert_eq, lookup_insert_ne by done. split.
      * split; [done|by eexists].
      * split; [by intros [? [=]]|]. intros (_ & day' & [= <-] & Hne). done.
    + rewrite lookup_insert_eq, lookup_insert_ne, lookup_insert_eq by done.
      split.
      * split; [done|by eexists].
      * split; [|by eexists]. intros _. split; [done|by exists day].
    + rewrite lookup_insert_eq, lookup_insert_ne by done. split.
      * split; [done|by eexists].
      * split; [by intros [? [=]]|]. by intros (_ & day' & [=] & _).
  - split.
    + split; [by intros [? [=]]|done].
    + split; [by intros [? [=]]|]. by intros [? _].
Qed.

End task_documents.

(** X16. Whatever the outcome of an ingestion, if its task exists
    afterwards the task still carries what step A wrote about the upload:
    file name, uploader, category, type and creation stamp; a custom name
    exactly for a side file, an expiry date exactly for a side file that
    gave a non-empty one. [notificationSent] is true and [recordCount] is
    set exactly when the status is [completed]; [errorMessage] is set
    exactly when it is [error]. *)
Theorem task_keeps_upload_metadata env request w d :
  let task_id := next_task_id w in
  let res := process_file_task env request w in
  processing_tasks res.2 !! task_id = Some d →
  (d !! "fileName" = Some (VStr (fileName request)) ∧
   d !! "uploadedBy" = Some (VStr (userId request)) ∧
   d !! "category" = Some (VStr (category request)) ∧
   d !! "type" = Some (VStr (fileType request)) ∧
   d !! "createdAt" = Some VServerTimestamp) ∧
  (is_Some (d !! "customName") ↔ fileType request = "side") ∧
  (is_Some (d !! "expiryDate")
   ↔ fileType request = "side" ∧
     ∃ day, expiryDate request = Some day ∧ day ≠ "") ∧
  (d !! "notificationSent" = Some (VBool true)
   ↔ d !! "status" = Some (VStr "completed")) ∧
  (is_Some (d !! "recordCount")
   ↔ d !! "status" = Some (VStr "completed")) ∧
  (is_Some (d !! "errorMessage") ↔ d !! "status" = Some (VStr "error")).
Proof.
  intros task_id res Hd.
  destruct (process_file_task_cases env request w)
    as (evs & _ & _ & _ & Hcases).
  fold res task_id in Hcases.
  destruct (task_data_fields request) as (F1 & F2 & F3 & F4 & F5 & F6 & F7 & F8).
  destruct (task_data_side request) as (S1 & S2).
  pose proof (task_data_status request) as F0.
  destruct Hcases
    as [(_ & processed & Htasks & _)
       |[(_ & e & Htasks & _)
        |[(e & _ & Htasks & _)|(e & _ & Htasks & _)]]];
    rewrite Htasks in Hd.
  - rewrite lookup_insert_eq in Hd. injection Hd as <-.
    destruct (completed_fields_lookup processed (task_data request))
      as (C1 & C2 & C3).
    rewrite C1, C2, C3.
    rewrite !(lookup_union_r (completed_fields processed)) by reflexivity.
    rewrite F7.
    split_and!; try assumption; try done;
      (split; [by intros [? [=]]|done]) || (split; [done|by eexists]).
  - rewrite lookup_insert_eq in Hd. injection Hd as <-.
    destruct (error_fields_lookup e (task_data request)) as (E1 & E2).
    rewrite E1, E2.
    rewrite !(lookup_union_r (error_fields e)) by reflexivity.
    rewrite F6, F8.
    split_and!; try assumption; try done;
      (split; [by intros [? [=]]|done]) || (split; [done|by eexists]).
  - rewrite lookup_insert_eq in Hd. injection Hd as <-.
    rewrite F0, F6, F7, F8.
    split_and!; try assumption; try done;
      (split; [by intros [? [=]]|done]) || (split; [done|by eexists]).
  - unfold task_id in Hd. by rewrite next_task_id_fresh in Hd.
Qed.

(** A run of X16: the sample upload, a main file. *)
Lemma task_keeps_upload_metadata_witness :
  let res := process_file_task Sample.env Sample.request Sample.world in
  ∃ d,
    processing_tasks res.2 !! next_task_id Sample.world = Some d ∧
    d !! "fileName" = Some (VStr "a.csv") ∧
    d !! "customName" = None.
Proof.
  intros res.
  destruct (processing_tasks res.2 !! next_task_id Sample.world)
    as [d|] eqn:Hd; [|vm_compute in Hd; discriminate Hd].
  exists d. split; [reflexivity|].
  destruct (task_keeps_upload_metadata Sample.env Sample.request
              Sample.world d Hd) as ((Hname & _) & Hcustom & _).
  split; [exact Hname|].
  apply eq_None_not_Some. intros Hc%Hcustom. discriminate Hc.
Defined.

Section order_of_effects.

Implicit Types (w : World) (env : Env) (request : ProcessRequest).

(** The trace of a job that left its task completed. *)
Lemma completed_run env request w :
  let task_id := next_task_id w in
  let res := process_file_task env request w in
  task_field res.2 task_id "status" = Some (VStr "completed") →
  ∃ processed raw cleanup,
    new_events w res.2
    = EvPrint (start_line request)
        :: ingest_events request task_id raw processed w
        ++ push_events env request task_id ++ cleanup ∧
    status_history task_id (new_events w res.2)
    = [VStr "processing"; VStr "completed"].
Proof.
  intros task_id res. unfold task_field.
  destruct (process_file_task_cases env request w)
    as (evs & Htrace & _ & _ & Hcases).
  fold res task_id in Htrace, Hcases.
  rewrite (new_events_app _ _ _ Htrace).
  destruct Hcases
    as [(_ & processed & Htasks & _ & Hhist & raw & cleanup & Hevs & _)
       |[(_ & e & Htasks & _)
        |[(e & _ & Htasks & _)|(e & _ & Htasks & _)]]];
    rewrite Htasks.
  - intros _. by exists processed, raw, cleanup.
  - rewrite lookup_insert_eq. cbn [mbind option_bind].
    destruct (error_fields_lookup e (task_data request)) as [-> _]. done.
  - rewrite lookup_insert_eq. cbn [mbind option_bind].
    by rewrite task_data_status.
  - fold (next_task_id w). unfold task_id. by rewrite next_task_id_fresh.
Qed.

Lemma publish_writes_length request task_id processed w :
  length (publish_writes request task_id processed w) ≤ publish_cap.
Proof.
  unfold publish_writes.
  rewrite length_zip_with, length_fresh_list, length_take. lia.
Qed.

(** What precedes the batch in a complete run. *)
Lemma before_batch_history request task_id banner :
  status_history task_id
    [EvPrint (start_line request); EvTaskSet task_id (task_data request);
     EvPrint banner]
  = [VStr "processing"].
Proof.
  rewrite !status_history_cons, status_written_set, task_data_status.
  reflexivity.
Qed.

Lemma ingest_events_split request task_id raw processed w rest :
  EvPrint (start_line request)
    :: ingest_events request task_id raw processed w ++ rest
  = [EvPrint (start_line request); EvTaskSet task_id (task_data request);
     EvPrint (SpreadsheetLogic.process_banner raw (category request))]
      ++ EvCommit (publish_writes request task_id processed w)
      :: EvTaskUpdate task_id (completed_fields processed) :: rest.
Proof. unfold ingest_events. reflexivity. Qed.

Lemma after_completion_history task_id (before after : list event) ws
    (fields : doc) :
  status_history task_id before = [VStr "processing"] →
  fields !! "status" = Some (VStr "completed") →
  status_history task_id
    (before ++ EvCommit ws :: EvTaskUpdate task_id fields :: after)
  = [VStr "processing"; VStr "completed"] →
  status_history task_id after = [].
Proof.
  intros Hbefore Hf Hhist.
  rewrite status_history_app, Hbefore, !status_history_cons in Hhist.
  change (status_written task_id (EvCommit _)) with (@None value) in Hhist.
  rewrite status_written_update, Hf in Hhist.
  cbn [app] in Hhist. by injection Hhist.
Qed.

End order_of_effects.

(** X17. Records are stored before completion is announced. When an
    ingestion leaves its task completed, what it did reads, in this order:
    the task written as [processing]; then, with no write on the task, no
    other batch and no push in between, one batch of at most 400 records
    committed; immediately after it the update that makes the task
    [completed]; and only then whatever follows, which writes no further
    status. *)
Theorem records_stored_before_completion env request w :
  let task_id := next_task_id w in
  let res := process_file_task env request w in
  task_field res.2 task_id "status" = Some (VStr "completed") →
  ∃ processed before after,
    new_events w res.2
    = before
        ++ EvCommit (publish_writes request task_id processed w)
        :: EvTaskUpdate task_id (completed_fields processed) :: after ∧
    status_history task_id before = [VStr "processing"] ∧
    commits before = [] ∧ sends before = [] ∧
    status_history task_id after = [] ∧
    length (publish_writes request task_id processed w) ≤ publish_cap.
Proof.
  intros task_id res Hstatus.
  destruct (completed_run env request w Hstatus)
    as (processed & raw & cleanup & Hevs & Hhist).
  fold task_id res in Hevs, Hhist.
  rewrite ingest_events_split in Hevs. rewrite Hevs in Hhist.
  pose proof (before_batch_history request task_id
                (SpreadsheetLogic.process_banner raw (category request)))
    as Hbefore.
  eexists processed, _, _.
  split_and!; [exact Hevs|exact Hbefore|reflexivity|reflexivity|
               |apply publish_writes_length].
  exact (after_completion_history _ _ _ _ _ Hbefore
           (completed_fields_status processed) Hhist).
Qed.

(** A run of X17: the sample upload. *)
Lemma records_stored_before_completion_witness :
  let task_id := next_task_id Sample.world in
  let res := process_file_task Sample.env Sample.request Sample.world in
  task_field res.2 task_id "status" = Some (VStr "completed") ∧
  ∃ ws fields before after,
    new_events Sample.world res.2
    = before ++ EvCommit ws :: EvTaskUpdate task_id fields :: after ∧
    commits before = [] ∧ length ws ≤ 400.
Proof.
  intros task_id res.
  assert (task_field res.2 task_id "status" = Some (VStr "completed"))
    as Hstatus by (vm_compute; reflexivity).
  split; [exact Hstatus|].
  destruct (records_stored_before_completion Sample.env Sample.request
              Sample.world Hstatus)
    as (processed & before & after & Hevs & _ & Hc & _ & _ & Hlen).
  eexists _, _, before, after.
  split_and!; [exact Hevs|exact Hc|exact Hlen].
Defined.
